(** * toygarble: boolean circuits, their validator, evaluator and bit codec

    A shallow embedding of [circuit.go].  Go's [int] is a 64-bit two's
    complement integer: fields of type [int] are [Z], and the additions of two
    such fields wrap around ([wrap64]).  Loop counters and slice offsets that
    start at 0 and only grow are [nat].  A run-time panic of the Go program
    (index out of range, [make] with a negative length, a bad slice
    expression) is the outcome [Panic]; the recursive gate evaluator is run
    on fuel and [NoFuel] is its exhaustion, which is shown never to happen
    with the fuel [EvaluateCircuit] gives it. *)

From Stdlib Require Import ZArith Lia Bool.
From Stdlib Require Strings.Byte.
From stdpp Require Import base list numbers relations.

Open Scope Z_scope.

(** ** Go run-time outcomes *)

Inductive outcome (A : Type) : Type :=
| Ret (a : A)
| Panic
| NoFuel.
Arguments Ret {A} a.
Arguments Panic {A}.
Arguments NoFuel {A}.

Definition obind {A B : Type} (m : outcome A) (k : A -> outcome B) : outcome B :=
  match m with
  | Ret a => k a
  | Panic => Panic
  | NoFuel => NoFuel
  end.

Notation "x <- m ;; k" := (obind m (fun x => k))
  (at level 100, m at next level, right associativity).
Notation "'let*' p ':=' m 'in' k" := (obind m (fun x => match x with p => k end))
  (at level 200, p pattern, m at level 200, k at level 200).

(** 64-bit wrap-around of Go's [int]. *)
Definition wrap64 (z : Z) : Z :=
  let m := z mod 2^64 in if 2^63 <=? m then m - 2^64 else m.

(** [s[i]] for an [int] index: out of range panics. *)
Definition idx {A} (l : list A) (i : Z) : outcome A :=
  if 0 <=? i then
    match l !! Z.to_nat i with Some x => Ret x | None => Panic end
  else Panic.

(** [s[i]] for a non-negative loop counter. *)
Definition idxn {A} (l : list A) (i : nat) : outcome A :=
  match l !! i with Some x => Ret x | None => Panic end.

(** [s[i] = x]: out of range panics. *)
Definition upd {A} (l : list A) (i : Z) (x : A) : outcome (list A) :=
  if (0 <=? i) && (i <? Z.of_nat (length l)) then Ret (<[Z.to_nat i := x]> l)
  else Panic.

Definition updn {A} (l : list A) (i : nat) (x : A) : outcome (list A) :=
  if decide (i < length l)%nat then Ret (<[i := x]> l) else Panic.

(** [make([]T, n)]: a negative length panics. *)
Definition make {A} (dflt : A) (n : Z) : outcome (list A) :=
  if n <? 0 then Panic else Ret (replicate (Z.to_nat n) dflt).

(** ** Gate types and the arity tables *)

Inductive GateType_t : Type :=
| GateINPUT | GateOUTPUT | GateAND | GateOR
| GateNOT | GateXOR | GateCONST | GateCOPY.

#[global] Instance GateType_eq_dec : EqDecision GateType_t.
Proof. solve_decision. Defined.

(** The integer value of each constant of [GateType_t]. *)
Definition gate_code (t : GateType_t) : nat :=
  match t with
  | GateINPUT => 0 | GateOUTPUT => 1 | GateAND => 2 | GateOR => 3
  | GateNOT => 4 | GateXOR => 5 | GateCONST => 6 | GateCOPY => 7
  end%nat.

Definition MAX_INPUT_DEGREE : Z := 2.

Definition min_input_wires : list Z := [0; 0; 2; 2; 1; 2; 0; 1].
Definition max_input_wires : list Z := [0; 1; 2; 2; 1; 2; 0; 1].

(** [min_input_wires[gateType]]; the tables have an entry for every type. *)
Definition min_in (t : GateType_t) : Z := nth (gate_code t) min_input_wires 0.
Definition max_in (t : GateType_t) : Z := nth (gate_code t) max_input_wires 0.

Record Gate : Type := mkGate {
  GateType : GateType_t;
  ConstVal : bool;
  InFrom : list Z
}.

Record Circuit : Type := mkCircuit {
  NumInputWires : Z;
  NumOutputWires : Z;
  NumInputVars : Z;
  NumWiresIV : list Z;
  NumOutputVars : Z;
  NumWiresOV : list Z;
  Gates : list Gate
}.

Definition set_Gates (c : Circuit) (gs : list Gate) : Circuit :=
  mkCircuit (NumInputWires c) (NumOutputWires c) (NumInputVars c)
    (NumWiresIV c) (NumOutputVars c) (NumWiresOV c) gs.

(** The zero value [Circuit{}]. *)
Definition emptyCircuit : Circuit := mkCircuit 0 0 0 [] 0 [] [].

(** ** Builder *)

(** [len(inFrom) < min || len(inFrom) > max]. *)
Definition arity_bad (t : GateType_t) (inFrom : list Z) : bool :=
  (Z.of_nat (length inFrom) <? min_in t) || (max_in t <? Z.of_nat (length inFrom)).

Definition addGate (circ : Circuit) (gateType : GateType_t) (constVal : bool)
    (inFrom : list Z) : Circuit * Z :=
  if arity_bad gateType inFrom then (circ, -1)
  else
    let gs := Gates circ ++ [mkGate gateType constVal inFrom] in
    (set_Gates circ gs, Z.of_nat (length gs) - 1).

Definition addGate2 (circ : Circuit) (gateType : GateType_t) (inFrom1 inFrom2 : Z)
    : Circuit * Z :=
  addGate circ gateType false [inFrom1; inFrom2].

(** [for i := 0; i < n; i++ { circ.addGate(t, false, nil) }] *)
Definition add_placeholders (circ : Circuit) (t : GateType_t) (n : Z) : Circuit :=
  Nat.iter (Z.to_nat n) (fun c => fst (addGate c t false [])) circ.

Definition initializeCircuit (circ : Circuit) (numInputWires numOutputWires
    numInputVars numOutputVars : Z) (numWiresPerIV numWiresPerOV : list Z)
    : Circuit :=
  let c := mkCircuit numInputWires numOutputWires numInputVars numWiresPerIV
             numOutputVars numWiresPerOV (Gates circ) in
  add_placeholders (add_placeholders c GateINPUT numInputWires)
    GateOUTPUT numOutputWires.

Definition getInputGate (circ : Circuit) (inputWireNo : Z) : Z := inputWireNo.

Definition getOutputGate (circ : Circuit) (outputWireNo : Z) : Z :=
  wrap64 (NumInputWires circ + outputWireNo).

Definition connectOutputWire (circ : Circuit) (gateNum outputNum : Z)
    : outcome (Circuit * bool) :=
  let o := getOutputGate circ outputNum in
  g <- idx (Gates circ) o ;;
  if bool_decide (length (InFrom g) = 0%nat) then
    gs <- upd (Gates circ) o (mkGate (GateType g) (ConstVal g) (InFrom g ++ [gateNum])) ;;
    Ret (set_Gates circ gs, true)
  else Ret (circ, false).

(** ** Validator *)

Definition validCircuit (circ : Circuit) : bool :=
  if Z.of_nat (length (Gates circ)) <? wrap64 (NumInputWires circ + NumOutputWires circ)
  then false
  else forallb (fun g => negb (arity_bad (GateType g) (InFrom g))) (Gates circ).

(** ** Evaluator *)

(** The three scratch slices [visited], [calculated] and [values]. *)
Record EvalState : Type := mkState {
  visited : list bool;
  calculated : list bool;
  values : list bool
}.

(** The [switch] on the gate type, given the results [success1, result1] and
    [success2, result2] of the predecessor calls (false when not made). *)
Definition gate_result (g : Gate) (inputs : list bool) (gateID : Z)
    (success1 result1 success2 result2 : bool) : outcome (bool * bool) :=
  let n := length (InFrom g) in
  match GateType g with
  | GateINPUT => r <- idx inputs gateID ;; Ret (true, r)
  | GateOUTPUT | GateCOPY =>
      if bool_decide (n = 1%nat) then Ret (success1, result1) else Ret (false, false)
  | GateAND =>
      if bool_decide (n = 2%nat) then
        if success1 && success2 then Ret (true, result1 && result2) else Ret (false, false)
      else Ret (false, false)
  | GateXOR =>
      if bool_decide (n = 2%nat) then
        if success1 && success2 then Ret (true, negb (eqb result1 result2))
        else Ret (false, false)
      else Ret (false, false)
  | GateCONST =>
      if bool_decide (n = 0%nat) then Ret (true, ConstVal g) else Ret (true, false)
  | GateOR =>
      if bool_decide (n = 2%nat) then
        if success1 && eqb success2 true then Ret (true, result1 || result2)
        else Ret (false, false)
      else Ret (false, false)
  | GateNOT =>
      if bool_decide (n = 1%nat) then
        if success1 then Ret (true, negb result1) else Ret (false, false)
      else Ret (false, false)
  end.

Fixpoint evaluateGate (circ : Circuit) (inputs : list bool) (fuel : nat)
    (gateID : Z) (st : EvalState) : outcome (EvalState * (bool * bool)) :=
  match fuel with
  | O => NoFuel
  | S fuel' =>
    vis <- idx (visited st) gateID ;;
    cyc <- (if vis then cal <- idx (calculated st) gateID ;; Ret (negb cal)
            else Ret false : outcome bool) ;;
    if cyc then Ret (st, (false, false)) else
    cal <- idx (calculated st) gateID ;;
    if cal then v <- idx (values st) gateID ;; Ret (st, (true, v)) else
    vis' <- upd (visited st) gateID true ;;
    let st1 := mkState vis' (calculated st) (values st) in
    g <- idx (Gates circ) gateID ;;
    let* (st2, (s1, r1, s2, r2)) :=
      (if bool_decide (GateType g = GateINPUT) then Ret (st1, (false, false, false, false))
       else
         p0 <- idx (InFrom g) 0 ;;
         let* (st2, (s1, r1)) := evaluateGate circ inputs fuel' p0 st1 in
         if bool_decide (length (InFrom g) = 2%nat) then
           p1 <- idx (InFrom g) 1 ;;
           let* (st3, (s2, r2)) := evaluateGate circ inputs fuel' p1 st2 in
           Ret (st3, (s1, r1, s2, r2))
         else Ret (st2, (s1, r1, false, false))) in
    let* (success, result) := gate_result g inputs gateID s1 r1 s2 r2 in
    if success then
      cal' <- upd (calculated st2) gateID true ;;
      vals' <- upd (values st2) gateID result ;;
      Ret (mkState (visited st2) cal' vals', (true, result))
    else Ret (st2, (false, result))
  end.

(** The loop over the output wires of [EvaluateCircuit]: [visited] is reset
    before each output gate, [calculated] and [values] are kept.  Each
    call of [evaluateGate] gets [len(circ.Gates) + 1] fuel. *)
Fixpoint eval_outputs (circ : Circuit) (inputs : list bool) (i : nat) (k : nat)
    (st : EvalState) (result : list bool) : outcome (bool * option (list bool)) :=
  match k with
  | O => Ret (true, Some result)
  | S k' =>
    let st0 := mkState (replicate (length (visited st)) false) (calculated st) (values st) in
    let* (st', (success, resultBit)) :=
      evaluateGate circ inputs (S (length (Gates circ)))
        (getOutputGate circ (Z.of_nat i)) st0 in
    result' <- updn result i resultBit ;;
    if negb success then Ret (false, None)
    else eval_outputs circ inputs (S i) k' st' result'
  end.

(** [EvaluateCircuit] returns the success flag and the result slice
    ([None] is [nil]). *)
Definition EvaluateCircuit (circ : Circuit) (inputBits : list bool)
    : outcome (bool * option (list bool)) :=
  if negb (Z.of_nat (length inputBits) =? NumInputWires circ)
     || (NumOutputWires circ <? 1)
  then Ret (false, None)
  else
    let n := Z.of_nat (length (Gates circ)) in
    visited0 <- make false n ;;
    calculated0 <- make false n ;;
    values0 <- make false n ;;
    result <- make false (NumOutputWires circ) ;;
    eval_outputs circ inputBits 0 (Z.to_nat (NumOutputWires circ))
      (mkState visited0 calculated0 values0) result.

(** ** Bit codec *)

Definition byte_val (b : Byte.byte) : Z := Z.of_N (Byte.to_N b).

(** Conversion of a value in [0, 256) back to a [byte]. *)
Definition byte_of_Z (z : Z) : Byte.byte :=
  match Byte.of_N (Z.to_N (z mod 256)) with Some b => b | None => Byte.x00 end.

(** The bit for wire offset [j] of buffer [b]:
    [int(b[len(b) - j/8 - 1]) & (1 << (j % 8)) != 0], or [false] past the
    buffer. *)
Definition pack_bit (b : list Byte.byte) (j : nat) : outcome bool :=
  if decide (j / 8 < length b)%nat then
    x <- idxn b (length b - j / 8 - 1) ;;
    Ret (negb (Z.land (byte_val x) (Z.shiftl 1 (Z.of_nat (j mod 8))) =? 0))
  else Ret false.

(** The inner loop [for j := 0; j < NumWiresIV[i]; j++]: [k] iterations
    left, writing [result[currentLoc]]. *)
Fixpoint pack_fill (b : list Byte.byte) (j : nat) (k : nat) (currentLoc : nat)
    (result : list bool) : outcome (list bool * nat) :=
  match k with
  | O => Ret (result, currentLoc)
  | S k' =>
    bit <- pack_bit b j ;;
    result' <- updn result currentLoc bit ;;
    pack_fill b (S j) k' (S currentLoc) result'
  end.

(** The outer loop over the given buffers; [i] is the buffer index.
    [len(inputBufs[i]) * 8] is the length of an in-memory slice times 8 and
    does not overflow. *)
Fixpoint pack_loop (circ : Circuit) (bufs : list (list Byte.byte)) (i : nat)
    (currentLoc : nat) (result : list bool) : outcome (option (list bool)) :=
  match bufs with
  | [] => Ret (Some result)
  | b :: bufs' =>
    w <- idxn (NumWiresIV circ) i ;;
    if w <? Z.of_nat (length b) * 8 then Ret None
    else
      let* (result', currentLoc') := pack_fill b 0 (Z.to_nat w) currentLoc result in
      pack_loop circ bufs' (S i) currentLoc' result'
  end.

Definition PadInputsToBoolArray (circ : Circuit) (inputBufs : list (list Byte.byte))
    : outcome (option (list bool)) :=
  result <- make false (NumInputWires circ) ;;
  if NumInputVars circ <? Z.of_nat (length inputBufs) then Ret None
  else pack_loop circ inputBufs 0 0 result.

(** [result[idx] += 1 << k] on a byte. *)
Definition byte_add_bit (x : Byte.byte) (k : nat) : Byte.byte :=
  byte_of_Z (byte_val x + Z.shiftl 1 (Z.of_nat k)).

Fixpoint bytes_loop (input : list bool) (i : nat) (result : list Byte.byte)
    : outcome (list Byte.byte) :=
  match input with
  | [] => Ret result
  | bit :: input' =>
    result' <-
      (if bit then
         let p := (length result - i / 8 - 1)%nat in
         x <- idxn result p ;;
         updn result p (byte_add_bit x (i mod 8))
       else Ret result) ;;
    bytes_loop input' (S i) result'
  end.

Definition boolArrayToBytes (input : list bool) : outcome (list Byte.byte) :=
  bytes_loop input 0 (replicate ((length input + 7) / 8) Byte.x00).

(** [s[lo:hi]] on a slice whose capacity is its length. *)
Definition slice {A} (l : list A) (lo hi : Z) : outcome (list A) :=
  if (0 <=? lo) && (lo <=? hi) && (hi <=? Z.of_nat (length l))
  then Ret (take (Z.to_nat (hi - lo)) (drop (Z.to_nat lo) l))
  else Panic.

(** The loop over the output variables; [k] iterations left.  The result
    slice of [make([][]byte, NumOutputVars)] is filled in order, so it is the
    list of the converted slices. *)
Fixpoint decode_loop (circ : Circuit) (outWires : list bool) (i : nat) (k : nat)
    (currentWire : Z) : outcome (list (list Byte.byte)) :=
  match k with
  | O => Ret []
  | S k' =>
    w <- idxn (NumWiresOV circ) i ;;
    boolSlice <- slice outWires currentWire (wrap64 (currentWire + w)) ;;
    bytes <- boolArrayToBytes boolSlice ;;
    rest <- decode_loop circ outWires (S i) k' (wrap64 (currentWire + w)) ;;
    Ret (bytes :: rest)
  end.

Definition DecodeOutputVariables (circ : Circuit) (outWires : list bool)
    : outcome (option (list (list Byte.byte))) :=
  if negb (NumOutputWires circ =? Z.of_nat (length outWires)) then Ret None
  else
    _ <- make ([] : list Byte.byte) (NumOutputVars circ) ;;
    r <- decode_loop circ outWires 0 (Z.to_nat (NumOutputVars circ)) 0 ;;
    Ret (Some r).

(** ** Circuits and tables used in the statements *)

(** The fan-in table of the specification, (min, max) per gate type. *)
Definition spec_arity (t : GateType_t) : Z * Z :=
  match t with
  | GateINPUT => (0, 0) | GateOUTPUT => (0, 1)
  | GateAND | GateOR | GateXOR => (2, 2)
  | GateNOT | GateCOPY => (1, 1)
  | GateCONST => (0, 0)
  end.

(** No inputs, one output wired to a [Const true] gate, built with the
    builder. *)
Definition const_circ : Circuit :=
  let c0 := initializeCircuit emptyCircuit 0 1 0 1 [] [1] in
  let '(c1, g) := addGate c0 GateCONST true [] in
  match connectOutputWire c1 g 0 with Ret (c2, _) => c2 | _ => c1 end.

(** No inputs and one output wire that is never wired. *)
Definition unwired_circ : Circuit := initializeCircuit emptyCircuit 0 1 0 1 [] [1].

(** One input wire but a single input variable declared 8 wires wide; the
    output is wired to the input. *)
Definition overlong_iv_circ : Circuit :=
  let c0 := initializeCircuit emptyCircuit 1 1 1 1 [8] [1] in
  match connectOutputWire c0 0 0 with Ret (c1, _) => c1 | _ => c0 end.

(** A circuit with no gates whose wire counts add up past [2^63]. *)
Definition huge_counts_circ : Circuit := mkCircuit (2^62) (2^62) 0 [] 0 [] [].

(** The packing rule of the specification: wire offset [j] of a variable
    holds bit [j mod 8] of byte [length - 1 - j/8] of its buffer, or false
    past the buffer. *)
Definition spec_bit (b : list Byte.byte) (j : nat) : bool :=
  if decide (j / 8 < length b)%nat
  then Z.testbit (byte_val (nth (length b - 1 - j / 8) b Byte.x00)) (Z.of_nat (j mod 8))
  else false.

(** The data-model invariant on the input partition: one non-negative wire
    count per input variable, summing to [NumInputWires]. *)
Definition inputs_consistent (c : Circuit) : Prop :=
  Z.of_nat (length (NumWiresIV c)) = NumInputVars c /\
  Forall (Z.le 0) (NumWiresIV c) /\
  foldr Z.add 0 (NumWiresIV c) = NumInputWires c.

(** First wire of input variable [i]. *)
Definition iv_offset (c : Circuit) (i : nat) : nat :=
  sum_list_with Z.to_nat (take i (NumWiresIV c)).

(** One input variable of 8 wires. *)
Definition byte_circ : Circuit := initializeCircuit emptyCircuit 8 0 1 0 [8] [].

(** The identity circuit on [n] wires: [n] input gates, [n] output gates,
    and one [Copy] gate per input wire, wired to the matching output. *)
Definition identity_circ (n : nat) : Circuit :=
  mkCircuit (Z.of_nat n) (Z.of_nat n) 1 [Z.of_nat n] 1 [Z.of_nat n]
    (replicate n (mkGate GateINPUT false []) ++
     map (fun i => mkGate GateOUTPUT false [Z.of_nat (2 * n + i)]) (seq 0 n) ++
     map (fun i => mkGate GateCOPY false [Z.of_nat i]) (seq 0 n)).

(** The same circuit built with the builder:
    [g := addGate(GateCOPY, false, [i]); connectOutputWire(g, i)]. *)
Fixpoint wire_copies (c : Circuit) (i : nat) (k : nat) : outcome Circuit :=
  match k with
  | O => Ret c
  | S k' =>
    let '(c1, g) := addGate c GateCOPY false [Z.of_nat i] in
    let* (c2, _) := connectOutputWire c1 g (Z.of_nat i) in
    wire_copies c2 (S i) k'
  end.

Definition identity_build (n : nat) : outcome Circuit :=
  wire_copies (initializeCircuit emptyCircuit (Z.of_nat n) (Z.of_nat n) 1 1
                 [Z.of_nat n] [Z.of_nat n]) 0 n.

(** [unpack_outputs(evaluate(pack_inputs([buf])))] on the identity circuit,
    composed as Go code would: a nil slice is passed on as empty. *)
Definition roundtrip (n : nat) (buf : list Byte.byte)
    : outcome (option (list (list Byte.byte))) :=
  let c := identity_circ n in
  packed <- PadInputsToBoolArray c [buf] ;;
  let* (_, out) := EvaluateCircuit c (default [] packed) in
  DecodeOutputVariables c (default [] out).

(** The value of the byte [k] places from the end of [buf], 0 before it. *)
Definition byte_from_end (buf : list Byte.byte) (k : nat) : Z :=
  if decide (k < length buf)%nat then byte_val (nth (length buf - 1 - k) buf Byte.x00)
  else 0.

(** The state of [boolArrayToBytes] after its first [i] bits: byte [k] from
    the end holds the low [min 8 (i - 8k)] bits of the target byte. *)
Definition bytes_inv (buf : list Byte.byte) (m i : nat) (res : list Byte.byte) : Prop :=
  length res = m /\
  forall k, (k < m)%nat -> exists x, res !! (m - 1 - k)%nat = Some x /\
    byte_val x = byte_from_end buf k mod 2 ^ Z.of_nat (Nat.min 8 (i - 8 * k)).

(** Invariant of the evaluator's scratch slices on [identity_circ n] with
    input [bits]: every memoized value is the input bit the gate copies. *)
Definition id_inv (n : nat) (bits : list bool) (st : EvalState) : Prop :=
  length (visited st) = (3 * n)%nat /\
  length (calculated st) = (3 * n)%nat /\
  length (values st) = (3 * n)%nat /\
  forall g, calculated st !! g = Some true ->
            values st !! g = Some (nth (g mod n) bits false).

(** The identity circuit after [i] of the [n] rounds of [wire_copies]:
    output gates [0..i) are wired, the others are still empty. *)
Definition build_gates (n i : nat) : list Gate :=
  replicate n (mkGate GateINPUT false []) ++
  map (fun o => mkGate GateOUTPUT false [Z.of_nat (2 * n + o)]) (seq 0 i) ++
  replicate (n - i) (mkGate GateOUTPUT false []) ++
  map (fun o => mkGate GateCOPY false [Z.of_nat o]) (seq 0 i).

Definition circ_with (n : nat) (gs : list Gate) : Circuit :=
  mkCircuit (Z.of_nat n) (Z.of_nat n) 1 [Z.of_nat n] 1 [Z.of_nat n] gs.

(** The gate-reference graph: an edge from a non-[Input] gate [g] to each
    gate [h] listed in its [InFrom]. *)
Definition edge (c : Circuit) (g h : Z) : Prop :=
  exists gate, 0 <= g /\ Gates c !! Z.to_nat g = Some gate /\
               GateType gate <> GateINPUT /\ h ∈ InFrom gate.

(** Gate [g] reaches a reference cycle. *)
Definition doomed (c : Circuit) (g : Z) : Prop :=
  exists h, rtc (edge c) g h /\ tc (edge c) h h.

(** Every gate respects the fan-in table (what [validCircuit] checks per gate). *)
Definition gates_ok (c : Circuit) : Prop :=
  forall k gate, Gates c !! k = Some gate -> arity_bad (GateType gate) (InFrom gate) = false.


(** The number of unvisited gates. *)
Fixpoint count_false (l : list bool) : nat :=
  match l with
  | [] => 0
  | b :: l' => (if b then 0 else 1) + count_false l'
  end%nat.

(** [visited] only goes from false to true. *)
Definition vis_mono (l1 l2 : list bool) : Prop :=
  length l1 = length l2 /\ forall k, l1 !! k = Some true -> l2 !! k = Some true.

(** The outcome of an [evaluateGate] call started in [st]: never out of
    fuel, and [visited] only grows. *)
Definition fuel_post (st : EvalState) (o : outcome (EvalState * (bool * bool))) : Prop :=
  match o with
  | Ret (st', _) => vis_mono (visited st) (visited st')
  | Panic => True
  | NoFuel => False
  end.

(** A valid circuit with an unreachable cycle: gates 2 and 3 are two [Not]
    gates feeding each other, and the only output gate reads the input. *)
Definition unreachable_cycle_circ : Circuit :=
  mkCircuit 1 1 1 [1] 1 [1]
    [mkGate GateINPUT false []; mkGate GateOUTPUT false [0];
     mkGate GateNOT false [3]; mkGate GateNOT false [2]].

(** A valid circuit with two outputs: output 0 reads the input, output 1
    reads gate 3 of the [Not]/[Not] cycle on gates 3 and 4. *)
Definition later_cycle_circ : Circuit :=
  mkCircuit 1 2 1 [1] 1 [2]
    [mkGate GateINPUT false []; mkGate GateOUTPUT false [0]; mkGate GateOUTPUT false [3];
     mkGate GateNOT false [4]; mkGate GateNOT false [3]].


(** ** [int64] bit codecs *)

(** [input & (1 << i) != 0]: the untyped constant [1] takes the type of
    [input], so the shift is an [int64] shift and [1 << 63] is [-2^63]. *)
Definition int64_bit (input : Z) (i : nat) : bool :=
  negb (Z.land input (wrap64 (Z.shiftl 1 (Z.of_nat i))) =? 0).

(** The loop [for i := 63; i >= 0; i--] of [int64toBoolArray]: [k]
    iterations left, the next index is [k - 1].  The [Printf] calls only
    write to standard output. *)
Fixpoint i64_loop (input : Z) (k : nat) (result : list bool) : outcome (list bool) :=
  match k with
  | O => Ret result
  | S i =>
    result' <- updn result i (int64_bit input i) ;;
    i64_loop input i result'
  end.

Definition int64toBoolArray (input : Z) : outcome (list bool) :=
  i64_loop input 64 (replicate 64 false).

(** [result = append(result, int64toBoolArray(input[i])...)] for each
    element in order. *)
Fixpoint i64a_loop (input : list Z) (result : list bool) : outcome (list bool) :=
  match input with
  | [] => Ret result
  | x :: input' =>
    bits <- int64toBoolArray x ;;
    i64a_loop input' (result ++ bits)
  end.

Definition int64ArraytoBoolArray (input : list Z) : outcome (list bool) :=
  i64a_loop input [].

(** The loop of [boolArrayToInt64] from index [i] on: [result += 1 << i] is
    an [int64] addition of an [int64] shift, and a shift by 64 or more
    gives 0. *)
Fixpoint b2i_loop (input : list bool) (i : nat) (result : Z) : Z :=
  match input with
  | [] => result
  | b :: input' =>
    b2i_loop input' (S i)
      (if b then wrap64 (result + wrap64 (Z.shiftl 1 (Z.of_nat i))) else result)
  end.

Definition boolArrayToInt64 (input : list bool) : Z := b2i_loop input 0 0.

(** The unsigned value of a little-endian bit list. *)
Definition bits_value (l : list bool) : Z :=
  fold_right (fun b acc => 2 * acc + Z.b2z b) 0 l.

Definition int64_bits (x : Z) : list bool := map (fun i => Z.testbit x (Z.of_nat i)) (seq 0 64).

Definition sample_int64s : list Z := [3; -1].

(** ** Partitions of the output wires *)

(** The state of [boolArrayToBytes] after its first [i] bits, for target
    byte values [tgt k] (byte [k] from the end). *)
Definition bytes_inv_tgt (tgt : nat -> Z) (m i : nat) (res : list Byte.byte) : Prop :=
  length res = m /\
  forall k, (k < m)%nat -> exists x, res !! (m - 1 - k)%nat = Some x /\
    byte_val x = tgt k mod 2 ^ Z.of_nat (Nat.min 8 (i - 8 * k)).

(** Byte [k] from the end of the encoding of [bs]: bits [8k .. 8k+7]. *)
Definition chunk_value (bs : list bool) (k : nat) : Z := bits_value (take 8 (drop (8 * k) bs)).

(** The output partition: one non-negative wire count per output variable,
    summing to [NumOutputWires]. *)
Definition outputs_consistent (c : Circuit) : Prop :=
  Z.of_nat (length (NumWiresOV c)) = NumOutputVars c /\
  Forall (Z.le 0) (NumWiresOV c) /\
  foldr Z.add 0 (NumWiresOV c) = NumOutputWires c.

(** First wire of output variable [i]. *)
Definition ov_offset (c : Circuit) (i : nat) : nat :=
  sum_list_with Z.to_nat (take i (NumWiresOV c)).

(** The output partition is the input partition. *)
Definition same_partition (c : Circuit) : Prop :=
  NumOutputWires c = NumInputWires c /\ NumOutputVars c = NumInputVars c /\
  NumWiresOV c = NumWiresIV c.

(** The bytes [unpack] gives back for input variable [i] after packing
    [bufs]: the buffer left-padded with zero bytes to the variable's
    [ceil(w/8)] bytes, all zero for a variable with no buffer. *)
Definition padded_var (c : Circuit) (bufs : list (list Byte.byte)) (i : nat) : list Byte.byte :=
  let w := Z.to_nat (nth i (NumWiresIV c) 0) in
  let b := nth i bufs [] in
  replicate ((w + 7) / 8 - length b) Byte.x00 ++ b.

Definition two_var_circ : Circuit := mkCircuit 12 12 2 [4; 8] 2 [4; 8] [].

Definition two_var_wires : list bool :=
  [true; false; true; true; false; true; false; false; false; false; false; true].

Definition two_var_in : Circuit := mkCircuit 16 16 2 [8; 8] 2 [8; 8] [].

(** ** Gate semantics *)

(** The boolean function a gate computes, read off the gate list: an
    [Input] gate is the input bit of its index, [Output] and [Copy] gates
    pass their predecessor's value on, and the logic gates apply their
    operator to their predecessors' values. *)
Inductive denote (c : Circuit) (inputs : list bool) : Z -> bool -> Prop :=
| denote_input g gate v :
    0 <= g -> Gates c !! Z.to_nat g = Some gate -> GateType gate = GateINPUT ->
    inputs !! Z.to_nat g = Some v -> denote c inputs g v
| denote_wire g gate h v :
    0 <= g -> Gates c !! Z.to_nat g = Some gate ->
    (GateType gate = GateOUTPUT \/ GateType gate = GateCOPY) -> InFrom gate = [h] ->
    denote c inputs h v -> denote c inputs g v
| denote_not g gate h v :
    0 <= g -> Gates c !! Z.to_nat g = Some gate -> GateType gate = GateNOT ->
    InFrom gate = [h] -> denote c inputs h v -> denote c inputs g (negb v)
| denote_and g gate h1 h2 v1 v2 :
    0 <= g -> Gates c !! Z.to_nat g = Some gate -> GateType gate = GateAND ->
    InFrom gate = [h1; h2] -> denote c inputs h1 v1 -> denote c inputs h2 v2 ->
    denote c inputs g (v1 && v2)
| denote_or g gate h1 h2 v1 v2 :
    0 <= g -> Gates c !! Z.to_nat g = Some gate -> GateType gate = GateOR ->
    InFrom gate = [h1; h2] -> denote c inputs h1 v1 -> denote c inputs h2 v2 ->
    denote c inputs g (v1 || v2)
| denote_xor g gate h1 h2 v1 v2 :
    0 <= g -> Gates c !! Z.to_nat g = Some gate -> GateType gate = GateXOR ->
    InFrom gate = [h1; h2] -> denote c inputs h1 v1 -> denote c inputs h2 v2 ->
    denote c inputs g (xorb v1 v2)
| denote_const g gate :
    0 <= g -> Gates c !! Z.to_nat g = Some gate -> GateType gate = GateCONST ->
    InFrom gate = [] -> denote c inputs g (ConstVal gate).

(** Every memoized value is the value of its gate. *)
Definition memo_ok (c : Circuit) (inputs : list bool) (st : EvalState) : Prop :=
  forall k v, calculated st !! k = Some true -> values st !! k = Some v ->
              denote c inputs (Z.of_nat k) v.

(** Every gate visited but not calculated lies on a reference path to [g]:
    the gates on the current recursion stack. *)
Definition pending_ok (c : Circuit) (g : Z) (st : EvalState) : Prop :=
  forall k, visited st !! k = Some true -> calculated st !! k = Some false ->
            tc (edge c) (Z.of_nat k) g.

(** ** Well-wired circuits *)

(** An outcome that does not panic and whose result satisfies [Q]
    (running out of fuel is allowed). *)
Definition opost {A} (Q : A -> Prop) (o : outcome A) : Prop :=
  match o with Ret a => Q a | Panic => False | NoFuel => True end.

(** Every reference of a non-[Input] gate addresses a gate, every
    non-[Input] gate has a predecessor, and every [Input] gate stands at an
    index below [NumInputWires]. *)
Definition wired (c : Circuit) : Prop :=
  forall k g, Gates c !! k = Some g ->
    (GateType g = GateINPUT -> Z.of_nat k < NumInputWires c) /\
    (GateType g <> GateINPUT ->
       InFrom g <> [] /\ Forall (fun h => 0 <= h < Z.of_nat (length (Gates c))) (InFrom g)).

Definition st_len (n : nat) (st : EvalState) : Prop :=
  length (visited st) = n /\ length (calculated st) = n /\ length (values st) = n.

Definition and_circ : Circuit :=
  mkCircuit 2 1 1 [2] 1 [1]
    [mkGate GateINPUT false []; mkGate GateINPUT false [];
     mkGate GateOUTPUT false [3]; mkGate GateAND false [0; 1]].

(** * Properties *)

(** ** Builder *)

(** C5: [addGate] rejects a predecessor list whose length is outside the
    fan-in table of its gate type, returning -1 with the circuit unchanged;
    otherwise it appends exactly one gate and returns its index. *)
Theorem addGate_arity (c : Circuit) (t : GateType_t) (cv : bool) (inFrom : list Z) :
  let n := Z.of_nat (length inFrom) in
  ((n < fst (spec_arity t) \/ snd (spec_arity t) < n) ->
     addGate c t cv inFrom = (c, -1)) /\
  (fst (spec_arity t) <= n <= snd (spec_arity t) ->
     addGate c t cv inFrom =
       (set_Gates c (Gates c ++ [mkGate t cv inFrom]), Z.of_nat (length (Gates c)))).
Proof.
  cbn zeta. unfold addGate, arity_bad, min_in, max_in.
  split; intros Hn.
  - assert (Hb : ((Z.of_nat (length inFrom) <? nth (gate_code t) min_input_wires 0)
                  || (nth (gate_code t) max_input_wires 0 <? Z.of_nat (length inFrom)))
                 = true) by (destruct t; simpl in *; apply orb_true_iff; lia).
    now rewrite Hb.
  - assert (Hb : ((Z.of_nat (length inFrom) <? nth (gate_code t) min_input_wires 0)
                  || (nth (gate_code t) max_input_wires 0 <? Z.of_nat (length inFrom)))
                 = false) by (destruct t; simpl in *; apply orb_false_iff; lia).
    rewrite Hb, length_app. simpl. f_equal. lia.
Qed.

(** C6: [connectOutputWire] on an existing output slot that already has a
    predecessor returns false and leaves the circuit unchanged; on an
    unwired slot it records the predecessor and returns true, after which
    every further wiring of that slot returns false. *)
Theorem connectOutputWire_once (c : Circuit) (g o : Z) (slot : Gate)
    (Hpos : 0 <= getOutputGate c o)
    (Hslot : Gates c !! Z.to_nat (getOutputGate c o) = Some slot) :
  let c' := set_Gates c (<[Z.to_nat (getOutputGate c o) :=
                           mkGate (GateType slot) (ConstVal slot) [g]]> (Gates c)) in
  (InFrom slot <> [] -> connectOutputWire c g o = Ret (c, false)) /\
  (InFrom slot = [] ->
     connectOutputWire c g o = Ret (c', true) /\
     forall g', connectOutputWire c' g' o = Ret (c', false)).
Proof.
  cbn zeta. unfold connectOutputWire, idx, upd.
  apply Z.leb_le in Hpos. rewrite Hpos, Hslot. simpl.
  pose proof (lookup_lt_Some _ _ _ Hslot) as Hlt.
  split.
  - intros Hne. destruct (InFrom slot); [congruence|]. reflexivity.
  - intros He. rewrite He. simpl.
    assert (Hr : (getOutputGate c o <? Z.of_nat (length (Gates c))) = true)
      by (apply Z.ltb_lt; lia).
    rewrite Hr. split; [reflexivity|].
    intros g'.
    change (getOutputGate (set_Gates c ?l) o) with (getOutputGate c o).
    rewrite Hpos. unfold set_Gates at 2; simpl.
    rewrite list_lookup_insert_eq by lia. reflexivity.
Qed.

(** Witness of C6: wiring the unwired output of [unwired_circ]. *)
Lemma connectOutputWire_once_witness :
  0 <= getOutputGate unwired_circ 0 /\
  Gates unwired_circ !! 0%nat = Some (mkGate GateOUTPUT false []) /\
  connectOutputWire unwired_circ 5 0 =
    Ret (set_Gates unwired_circ [mkGate GateOUTPUT false [5]], true).
Proof.
  split; [vm_compute; congruence|]. split; [reflexivity|].
  destruct (connectOutputWire_once unwired_circ 5 0 (mkGate GateOUTPUT false []))
    as [_ H2]; [vm_compute; congruence | reflexivity |].
  destruct (H2 eq_refl) as [H _]. rewrite H. reflexivity.
Defined.

(** ** Evaluator: shape checks *)

(** C7: when the input vector's length differs from [NumInputWires], or the
    circuit has no output wire, [EvaluateCircuit] fails with no result slice
    and without evaluating any gate. *)
Theorem EvaluateCircuit_shape (c : Circuit) (inputs : list bool) :
  Z.of_nat (length inputs) <> NumInputWires c \/ NumOutputWires c < 1 ->
  EvaluateCircuit c inputs = Ret (false, None).
Proof.
  intros H. unfold EvaluateCircuit.
  assert (Hb : negb (Z.of_nat (length inputs) =? NumInputWires c)
               || (NumOutputWires c <? 1) = true).
  { apply orb_true_iff. destruct H as [H | H].
    - left. apply negb_true_iff, Z.eqb_neq. exact H.
    - right. apply Z.ltb_lt. exact H. }
  now rewrite Hb.
Qed.

(** Witness of C7: a two-element input to the one-input [overlong_iv_circ]. *)
Lemma EvaluateCircuit_shape_witness :
  Z.of_nat (length [true; false]) <> NumInputWires overlong_iv_circ /\
  EvaluateCircuit overlong_iv_circ [true; false] = Ret (false, None).
Proof.
  split; [vm_compute; congruence|].
  apply EvaluateCircuit_shape. left. vm_compute. congruence.
Defined.

(** ** Evaluator: the unguarded first-predecessor access *)

(** C1: a valid circuit whose output is wired to a [Const] gate, built with
    the builder: evaluating it does not return the constant, it panics,
    because [evaluateGate] reads [InFrom[0]] of every non-input gate and a
    [Const] gate has no predecessor. *)
Theorem const_gate_eval_panics :
  validCircuit const_circ = true /\
  Gates const_circ = [mkGate GateOUTPUT false [1]; mkGate GateCONST true []] /\
  EvaluateCircuit const_circ [] = Panic.
Proof. vm_compute. auto. Qed.

(** C9: some circuit that the validator accepts, the initial circuit with
    one unwired output, makes [EvaluateCircuit] panic on a well-sized input
    vector instead of failing. *)
Theorem valid_unwired_output_panics :
  exists (c : Circuit) (inputs : list bool),
    validCircuit c = true /\
    Z.of_nat (length inputs) = NumInputWires c /\
    (exists slot, Gates c !! Z.to_nat (getOutputGate c 0) = Some slot /\
                  GateType slot = GateOUTPUT /\ InFrom slot = []) /\
    EvaluateCircuit c inputs = Panic.
Proof.
  exists unwired_circ, []. vm_compute.
  split; [reflexivity|]. split; [reflexivity|].
  split; [eexists; split; [reflexivity | split; reflexivity] | reflexivity].
Qed.

(** ** Validator *)

(** C8: the gate-count check of [validCircuit] compares with
    [NumInputWires + NumOutputWires] computed in 64-bit [int] arithmetic, so
    a circuit with no gate and wire counts 2^62 and 2^62 is accepted although
    its gate count 0 is below the sum 2^63. *)
Theorem validCircuit_count_wraps :
  Z.of_nat (length (Gates huge_counts_circ)) <
    NumInputWires huge_counts_circ + NumOutputWires huge_counts_circ /\
  validCircuit huge_counts_circ = true.
Proof. vm_compute. split; [reflexivity | reflexivity]. Qed.

(** ** Bit codec: per-variable wire counts beyond [NumInputWires] *)

(** C10: a circuit built by [initializeCircuit] with one input wire but an
    8-wire input variable passes the validator, and packing a one-byte buffer
    (within the variable's allotment) panics on the write past the end of
    the result slice instead of returning nil. *)
Theorem pack_overlong_vars_panics :
  exists (c : Circuit) (bufs : list (list Byte.byte)),
    validCircuit c = true /\
    NumInputWires c < foldr Z.add 0 (NumWiresIV c) /\
    Z.of_nat (length bufs) <= NumInputVars c /\
    Forall2 (fun b w => Z.of_nat (length b) * 8 <= w) bufs (NumWiresIV c) /\
    PadInputsToBoolArray c bufs = Panic.
Proof.
  exists overlong_iv_circ, [[Byte.x01]]. vm_compute.
  split; [reflexivity|]. split; [reflexivity|]. split; [congruence|].
  split; [repeat constructor; vm_compute; congruence | reflexivity].
Qed.

(** ** Bit codec: packing *)

Lemma land_shiftl_testbit (x k : Z) :
  0 <= k -> negb (Z.land x (Z.shiftl 1 k) =? 0) = Z.testbit x k.
Proof.
  intros Hk. rewrite Z.shiftl_1_l. destruct (Z.testbit x k) eqn:E.
  - apply negb_true_iff, Z.eqb_neq. intros H.
    assert (Hb : Z.testbit (Z.land x (2 ^ k)) k = true)
      by (rewrite Z.land_spec, E, Z.pow2_bits_true by lia; reflexivity).
    rewrite H, Z.bits_0 in Hb. discriminate.
  - apply negb_false_iff, Z.eqb_eq. apply Z.bits_inj'. intros n Hn.
    rewrite Z.land_spec, Z.bits_0, Z.pow2_bits_eqb by lia.
    destruct (Z.eqb_spec k n) as [<-|]; [rewrite E; reflexivity | apply andb_false_r].
Qed.

Lemma pack_bit_spec (b : list Byte.byte) (j : nat) : pack_bit b j = Ret (spec_bit b j).
Proof.
  unfold pack_bit, spec_bit, idxn. case_decide as Hj; [|reflexivity].
  replace (length b - j / 8 - 1)%nat with (length b - 1 - j / 8)%nat by lia.
  destruct (lookup_lt_is_Some_2 b (length b - 1 - j / 8)%nat) as [x Hx]; [lia|].
  rewrite Hx. erewrite nth_lookup_Some by eauto. simpl.
  f_equal. apply land_shiftl_testbit. lia.
Qed.

Lemma pack_fill_spec (b : list Byte.byte) (k : nat) :
  forall (j loc : nat) (res : list bool),
  (loc + k <= length res)%nat ->
  exists res', pack_fill b j k loc res = Ret (res', (loc + k)%nat) /\
    length res' = length res /\
    forall t, res' !! t =
      if decide (loc <= t < loc + k)%nat then Some (spec_bit b (j + (t - loc)))
      else res !! t.
Proof.
  induction k as [|k IH]; intros j loc res Hk.
  - exists res. rewrite Nat.add_0_r. split; [reflexivity|]. split; [reflexivity|].
    intros t. case_decide; [lia | reflexivity].
  - simpl. rewrite pack_bit_spec. simpl. unfold updn.
    case_decide as Hl; [|lia]. simpl.
    destruct (IH (S j) (S loc) (<[loc := spec_bit b j]> res)) as (res' & Hr & Hlen & Ht);
      [rewrite length_insert; lia|].
    exists res'. rewrite Hr, Hlen, length_insert.
    split; [do 2 f_equal; lia|]. split; [reflexivity|].
    intros t. rewrite Ht.
    case_decide as H1; case_decide as H2; try lia.
    + do 2 f_equal. lia.
    + destruct (decide (t = loc)) as [->|Hne].
      * rewrite list_lookup_insert_eq by lia. do 2 f_equal. lia.
      * lia.
    + rewrite list_lookup_insert_ne by lia. reflexivity.
Qed.

Lemma drop_cons_lookup {A} (l : list A) (i : nat) (w : A) (ws : list A) :
  drop i l = w :: ws -> l !! i = Some w /\ drop (S i) l = ws.
Proof.
  intros H. split.
  - rewrite <- (Nat.add_0_r i), <- lookup_drop, H. reflexivity.
  - rewrite <- Nat.add_1_r, <- drop_drop, H. reflexivity.
Qed.

Lemma sum_take_le (l : list Z) (n : nat) :
  (sum_list_with Z.to_nat (take n l) <= sum_list_with Z.to_nat l)%nat.
Proof.
  rewrite <- (take_drop n l) at 2. rewrite sum_list_with_app. lia.
Qed.

Lemma foldr_add_to_nat (l : list Z) :
  Forall (Z.le 0) l -> Z.to_nat (foldr Z.add 0 l) = sum_list_with Z.to_nat l /\
                       0 <= foldr Z.add 0 l.
Proof.
  induction 1 as [|x l Hx Hl [IH1 IH2]]; [simpl; lia|].
  simpl. rewrite Z2Nat.inj_add by lia. lia.
Qed.

Section PackLoop.
Variable c : Circuit.

Lemma pack_loop_some (bufs : list (list Byte.byte)) :
  forall (wivs : list Z) (i loc : nat) (res : list bool),
  drop i (NumWiresIV c) = wivs ->
  Forall (Z.le 0) wivs ->
  (length bufs <= length wivs)%nat ->
  (loc + sum_list_with Z.to_nat (take (length bufs) wivs) <= length res)%nat ->
  (forall m b w, bufs !! m = Some b -> wivs !! m = Some w ->
                 Z.of_nat (length b) * 8 <= w) ->
  exists res', pack_loop c bufs i loc res = Ret (Some res') /\
    length res' = length res /\
    (forall t, (t < loc \/ loc + sum_list_with Z.to_nat (take (length bufs) wivs) <= t)%nat ->
               res' !! t = res !! t) /\
    (forall m b w j, bufs !! m = Some b -> wivs !! m = Some w -> (j < Z.to_nat w)%nat ->
       res' !! (loc + sum_list_with Z.to_nat (take m wivs) + j)%nat = Some (spec_bit b j)).
Proof.
  induction bufs as [|b bufs IH]; intros wivs i loc res Hd Hnn Hlen Hsum Hfit.
  - exists res. split; [reflexivity|]. split; [reflexivity|].
    split; [reflexivity|]. intros m b w j Hb. rewrite lookup_nil in Hb. discriminate.
  - destruct wivs as [|w ws]; [simpl in Hlen; lia|].
    destruct (drop_cons_lookup _ _ _ _ Hd) as [Hw Hd'].
    pose proof (Forall_inv Hnn) as Hw0. pose proof (Forall_inv_tail Hnn) as Hnn'.
    simpl in Hlen, Hsum.
    pose proof (Hfit 0%nat b w eq_refl eq_refl) as Hb.
    simpl. unfold idxn. rewrite Hw. simpl.
    assert (Hlt : (w <? Z.of_nat (length b) * 8) = false) by (apply Z.ltb_ge; lia).
    rewrite Hlt.
    destruct (pack_fill_spec b (Z.to_nat w) 0 loc res) as (res1 & Hf & Hlen1 & Ht1);
      [lia|].
    rewrite Hf. simpl.
    destruct (IH ws (S i) (loc + Z.to_nat w)%nat res1) as (res' & Hr & Hlen' & Hout & Hin);
      [assumption | assumption | lia | lia | |].
    { intros m b' w' Hb' Hw'. exact (Hfit (S m) b' w' Hb' Hw'). }
    exists res'. split; [exact Hr|]. split; [lia|]. split.
    + intros t Ht. rewrite Hout by lia. rewrite Ht1. case_decide; [lia | reflexivity].
    + intros [|m] b' w' j Hb' Hw' Hj.
      * simpl in Hb', Hw'. injection Hb' as <-. injection Hw' as <-.
        simpl. rewrite Hout by lia. rewrite Ht1.
        case_decide; [|lia]. do 2 f_equal. lia.
      * simpl in Hb', Hw' |- *.
        replace (loc + (Z.to_nat w + sum_list_with Z.to_nat (take m ws)) + j)%nat
          with (loc + Z.to_nat w + sum_list_with Z.to_nat (take m ws) + j)%nat by lia.
        exact (Hin m b' w' j Hb' Hw' Hj).
Qed.

Lemma pack_loop_none (bufs : list (list Byte.byte)) :
  forall (wivs : list Z) (i loc : nat) (res : list bool),
  drop i (NumWiresIV c) = wivs ->
  Forall (Z.le 0) wivs ->
  (length bufs <= length wivs)%nat ->
  (loc + sum_list_with Z.to_nat (take (length bufs) wivs) <= length res)%nat ->
  (exists m b w, bufs !! m = Some b /\ wivs !! m = Some w /\
                 w < Z.of_nat (length b) * 8) ->
  pack_loop c bufs i loc res = Ret None.
Proof.
  induction bufs as [|b bufs IH]; intros wivs i loc res Hd Hnn Hlen Hsum Hbad.
  - destruct Hbad as (m & b & w & Hb & _). rewrite lookup_nil in Hb. discriminate.
  - destruct wivs as [|w ws]; [simpl in Hlen; lia|].
    destruct (drop_cons_lookup _ _ _ _ Hd) as [Hw Hd'].
    pose proof (Forall_inv Hnn) as Hw0. pose proof (Forall_inv_tail Hnn) as Hnn'.
    simpl in Hlen, Hsum.
    simpl. unfold idxn. rewrite Hw. simpl.
    destruct (w <? Z.of_nat (length b) * 8) eqn:Hlt; [reflexivity|].
    apply Z.ltb_ge in Hlt.
    destruct (pack_fill_spec b (Z.to_nat w) 0 loc res) as (res1 & Hf & Hlen1 & _);
      [lia|].
    rewrite Hf. simpl.
    apply (IH ws (S i) (loc + Z.to_nat w)%nat res1); [assumption | assumption | lia | lia |].
    destruct Hbad as ([|m] & b' & w' & Hb' & Hw' & Hlt').
    + simpl in Hb', Hw'. injection Hb' as <-. injection Hw' as <-. lia.
    + exists m, b', w'. auto.
Qed.
End PackLoop.

Lemma pack_inputs_some (c : Circuit) (bufs : list (list Byte.byte))
    (Hc : inputs_consistent c) :
  Z.of_nat (length bufs) <= NumInputVars c ->
  (forall i b w, bufs !! i = Some b -> NumWiresIV c !! i = Some w ->
                 Z.of_nat (length b) * 8 <= w) ->
  exists res, PadInputsToBoolArray c bufs = Ret (Some res) /\
    Z.of_nat (length res) = NumInputWires c /\
    (forall i b w j, bufs !! i = Some b -> NumWiresIV c !! i = Some w ->
       (j < Z.to_nat w)%nat -> res !! (iv_offset c i + j)%nat = Some (spec_bit b j)) /\
    (forall t, (iv_offset c (length bufs) <= t < length res)%nat ->
       res !! t = Some false).
Proof.
  destruct Hc as (Hlen & Hnn & Hsum).
  destruct (foldr_add_to_nat _ Hnn) as [Hs1 Hs2]. rewrite Hsum in Hs1, Hs2.
  pose proof (sum_take_le (NumWiresIV c) (length bufs)) as Htake.
  unfold PadInputsToBoolArray, make.
  assert (Hneg : (NumInputWires c <? 0) = false) by (apply Z.ltb_ge; lia).
  rewrite Hneg. simpl.
  intros Hle Hfit. apply Z.ltb_ge in Hle. rewrite Hle.
  destruct (pack_loop_some c bufs (NumWiresIV c) 0 0 (replicate (Z.to_nat (NumInputWires c)) false))
    as (res & Hr & Hl & Hout & Hin);
    [apply drop_0 | exact Hnn | lia | rewrite length_replicate; lia | exact Hfit |].
  exists res. split; [exact Hr|]. rewrite length_replicate in Hl.
  split; [lia|]. split.
  - intros i b w j Hb Hw Hj. exact (Hin i b w j Hb Hw Hj).
  - intros t Ht. unfold iv_offset in Ht. rewrite Hout by lia.
    apply lookup_replicate_2. lia.
Qed.

(** C4: on a circuit whose input partition is consistent (one non-negative
    wire count per input variable, summing to [NumInputWires]),
    [PadInputsToBoolArray] returns nil when more buffers than input
    variables are given or when some buffer has more bits than its variable
    has wires; otherwise wire [j] of variable [i] holds bit [j mod 8] of
    byte [length - 1 - j/8] of buffer [i] (false past the buffer) and the
    wires after the given variables are false.  The byte [0x05] packed into
    one 8-wire variable gives [true,false,true,false,false,false,false,false]. *)
Theorem pack_inputs_spec (c : Circuit) (bufs : list (list Byte.byte))
    (Hc : inputs_consistent c) :
  (NumInputVars c < Z.of_nat (length bufs) ->
     PadInputsToBoolArray c bufs = Ret None) /\
  (Z.of_nat (length bufs) <= NumInputVars c ->
     (exists i b w, bufs !! i = Some b /\ NumWiresIV c !! i = Some w /\
                    w < Z.of_nat (length b) * 8) ->
     PadInputsToBoolArray c bufs = Ret None) /\
  (Z.of_nat (length bufs) <= NumInputVars c ->
     (forall i b w, bufs !! i = Some b -> NumWiresIV c !! i = Some w ->
                    Z.of_nat (length b) * 8 <= w) ->
     exists res, PadInputsToBoolArray c bufs = Ret (Some res) /\
       Z.of_nat (length res) = NumInputWires c /\
       (forall i b w j, bufs !! i = Some b -> NumWiresIV c !! i = Some w ->
          (j < Z.to_nat w)%nat -> res !! (iv_offset c i + j)%nat = Some (spec_bit b j)) /\
       (forall t, (iv_offset c (length bufs) <= t < length res)%nat ->
          res !! t = Some false)) /\
  PadInputsToBoolArray byte_circ [[Byte.x05]] =
    Ret (Some [true; false; true; false; false; false; false; false]).
Proof.
  split; [|split; [|split]]; [| | exact (pack_inputs_some c bufs Hc) | reflexivity].
  all: destruct Hc as (Hlen & Hnn & Hsum).
  all: destruct (foldr_add_to_nat _ Hnn) as [Hs1 Hs2]; rewrite Hsum in Hs1, Hs2.
  all: pose proof (sum_take_le (NumWiresIV c) (length bufs)) as Htake.
  all: unfold PadInputsToBoolArray, make.
  all: assert (Hneg : (NumInputWires c <? 0) = false) by (apply Z.ltb_ge; lia).
  all: rewrite Hneg; simpl.
  - intros Hgt. apply Z.ltb_lt in Hgt. rewrite Hgt. reflexivity.
  - intros Hle Hbad. apply Z.ltb_ge in Hle. rewrite Hle.
    apply (pack_loop_none c bufs (NumWiresIV c)); [apply drop_0 | exact Hnn | lia | |].
    + rewrite length_replicate. lia.
    + exact Hbad.
Qed.

(** Witness of C4: the 8-wire variable of [byte_circ]. *)
Lemma pack_inputs_spec_witness :
  inputs_consistent byte_circ /\
  PadInputsToBoolArray byte_circ [[Byte.x05]] =
    Ret (Some [true; false; true; false; false; false; false; false]).
Proof.
  assert (H : inputs_consistent byte_circ)
    by (split; [reflexivity | split; [repeat constructor; lia | reflexivity]]).
  split; [exact H|].
  exact (proj2 (proj2 (proj2 (pack_inputs_spec byte_circ [[Byte.x05]] H)))).
Defined.

(** ** Bit codec: bytes *)

Lemma byte_val_range (b : Byte.byte) : 0 <= byte_val b < 256.
Proof. unfold byte_val. pose proof (Byte.to_N_bounded b). lia. Qed.

Lemma byte_val_of_Z (z : Z) : byte_val (byte_of_Z z) = z mod 256.
Proof.
  unfold byte_of_Z, byte_val.
  pose proof (Z.mod_pos_bound z 256 ltac:(lia)) as Hb.
  destruct (Byte.of_N (Z.to_N (z mod 256))) as [b|] eqn:E.
  - apply Byte.to_of_N in E. rewrite E. lia.
  - apply Byte.of_N_None_iff in E. lia.
Qed.

Lemma byte_val_inj (x y : Byte.byte) : byte_val x = byte_val y -> x = y.
Proof.
  unfold byte_val. intros H. apply N2Z.inj in H.
  pose proof (Byte.of_to_N x) as Hx. pose proof (Byte.of_to_N y) as Hy.
  rewrite H in Hx. congruence.
Qed.

Lemma mod_pow2_succ (x r : Z) :
  0 <= r -> x mod 2 ^ (r + 1) = x mod 2 ^ r + (if Z.testbit x r then 2 ^ r else 0).
Proof.
  intros Hr. rewrite Z.pow_add_r, Z.pow_1_r by lia.
  pose proof (Z.testbit_spec' x r Hr) as Hb.
  assert (Ha : 0 < 2 ^ r) by (apply Z.pow_pos_nonneg; lia).
  set (a := 2 ^ r) in *.
  assert (Hm : x mod (a * 2) = x mod a + a * ((x / a) mod 2)).
  { symmetry. apply (Z.mod_unique _ _ ((x / a) / 2)).
    - left. pose proof (Z.mod_pos_bound x a Ha).
      pose proof (Z.mod_pos_bound (x / a) 2 ltac:(lia)). nia.
    - pose proof (Z.div_mod x a ltac:(lia)).
      pose proof (Z.div_mod (x / a) 2 ltac:(lia)). nia. }
  rewrite Hm, <- Hb. destruct (Z.testbit x r); simpl; lia.
Qed.

Lemma spec_bit_from_end (buf : list Byte.byte) (j : nat) :
  spec_bit buf j = Z.testbit (byte_from_end buf (j / 8)) (Z.of_nat (j mod 8)).
Proof.
  unfold spec_bit, byte_from_end. case_decide; [reflexivity|].
  rewrite Z.bits_0. reflexivity.
Qed.

Lemma bytes_loop_spec (buf : list Byte.byte) (n : nat) (Hn : (8 * length buf <= n)%nat) :
  forall k i res, (i + k <= n)%nat -> bytes_inv buf ((n + 7) / 8) i res ->
  exists res', bytes_loop (map (spec_bit buf) (seq i k)) i res = Ret res' /\
               bytes_inv buf ((n + 7) / 8) (i + k) res'.
Proof.
  set (m := ((n + 7) / 8)%nat).
  induction k as [|k IH]; intros i res Hik [Hlen Hinv].
  - exists res. rewrite Nat.add_0_r. split; [reflexivity | split; assumption].
  - assert (Hq : (i / 8 < m)%nat).
    { subst m. apply Nat.Div0.div_lt_upper_bound.
      pose proof (Nat.div_mod (n + 7) 8 ltac:(lia)).
      pose proof (Nat.mod_upper_bound (n + 7) 8 ltac:(lia)). lia. }
    pose proof (Nat.div_mod i 8 ltac:(lia)) as Hdm.
    pose proof (Nat.mod_upper_bound i 8 ltac:(lia)) as Hmb.
    destruct (Hinv (i / 8)%nat Hq) as (x & Hx & Hxv).
    assert (Hexp : Nat.min 8 (i - 8 * (i / 8)) = (i mod 8)%nat) by lia.
    rewrite Hexp in Hxv.
    set (X := byte_from_end buf (i / 8)) in Hxv.
    pose proof (mod_pow2_succ X (Z.of_nat (i mod 8)) ltac:(lia)) as Hsucc.
    (* the state after bit [i] *)
    assert (Hstep : exists res1,
      (if spec_bit buf i then
         x' <- idxn res (length res - i / 8 - 1) ;;
         updn res (length res - i / 8 - 1) (byte_add_bit x' (i mod 8))
       else Ret res) = Ret res1 /\ bytes_inv buf m (S i) res1).
    { assert (Hother : forall k', (k' < m)%nat -> k' <> (i / 8)%nat ->
                Nat.min 8 (S i - 8 * k') = Nat.min 8 (i - 8 * k')) by lia.
      rewrite spec_bit_from_end. fold X.
      destruct (Z.testbit X (Z.of_nat (i mod 8))) eqn:Hbit.
      - unfold idxn, updn. rewrite Hlen.
        replace (m - i / 8 - 1)%nat with (m - 1 - i / 8)%nat by lia.
        rewrite Hx. cbn [obind]. case_decide; [|lia].
        eexists. split; [reflexivity|]. split; [rewrite length_insert; exact Hlen|].
        intros k' Hk'. destruct (decide (k' = i / 8)%nat) as [->|Hne].
        + eexists. rewrite list_lookup_insert_eq by lia. split; [reflexivity|].
          unfold byte_add_bit. rewrite byte_val_of_Z, Z.shiftl_1_l.
          replace (Nat.min 8 (S i - 8 * (i / 8))) with (S (i mod 8)) by lia.
          rewrite Nat2Z.inj_succ, <- Z.add_1_r. fold X.
          rewrite Hsucc, Hxv.
          pose proof (Z.mod_pos_bound X (2 ^ Z.of_nat (i mod 8)) ltac:(lia)).
          assert (2 ^ Z.of_nat (i mod 8) <= 128).
          { replace 128 with (2 ^ 7) by reflexivity. apply Z.pow_le_mono_r; lia. }
          apply Z.mod_small. lia.
        + destruct (Hinv k' Hk') as (y & Hy & Hyv).
          exists y. rewrite list_lookup_insert_ne by lia. split; [exact Hy|].
          rewrite Hother by lia. exact Hyv.
      - exists res. split; [reflexivity|]. split; [exact Hlen|].
        intros k' Hk'. destruct (Hinv k' Hk') as (y & Hy & Hyv).
        exists y. split; [exact Hy|].
        destruct (decide (k' = i / 8)%nat) as [->|Hne].
        + replace (Nat.min 8 (S i - 8 * (i / 8))) with (S (i mod 8)) by lia.
          rewrite Nat2Z.inj_succ, <- Z.add_1_r. fold X. rewrite Hsucc.
          assert (x = y) by congruence. subst y. lia.
        + rewrite Hother by lia. exact Hyv. }
    destruct Hstep as (res1 & Hr1 & Hinv1).
    destruct (IH (S i) res1 ltac:(lia) Hinv1) as (res' & Hr' & Hinv').
    exists res'. cbn [seq map bytes_loop]. rewrite Hr1. cbn [obind].
    replace (i + S k)%nat with (S i + k)%nat by lia. split; [exact Hr'| exact Hinv'].
Qed.

Lemma boolArrayToBytes_packed (buf : list Byte.byte) (n : nat) :
  (8 * length buf <= n)%nat ->
  boolArrayToBytes (map (spec_bit buf) (seq 0 n)) =
    Ret (replicate ((n + 7) / 8 - length buf) Byte.x00 ++ buf).
Proof.
  intros Hn. unfold boolArrayToBytes. rewrite length_map, length_seq.
  set (m := ((n + 7) / 8)%nat).
  assert (HLm : (length buf <= m)%nat).
  { subst m. apply Nat.div_le_lower_bound; lia. }
  destruct (bytes_loop_spec buf n Hn n 0 (replicate m Byte.x00)) as (res & Hr & Hlen & Hinv).
  { lia. }
  { split; [apply length_replicate|]. intros k Hk. exists Byte.x00.
    rewrite lookup_replicate_2 by lia. split; [reflexivity|].
    replace (Nat.min 8 (0 - 8 * k)) with 0%nat by lia. simpl.
    rewrite Z.mod_1_r. reflexivity. }
  fold m in Hinv, Hlen.
  rewrite Hr. f_equal. apply list_eq. intros p.
  destruct (decide (p < m)%nat) as [Hp|Hp].
  - destruct (Hinv (m - 1 - p)%nat ltac:(lia)) as (x & Hx & Hxv).
    replace (m - 1 - (m - 1 - p))%nat with p in Hx by lia.
    rewrite Hx. unfold byte_from_end in Hxv.
    case_decide as Hk.
    + rewrite lookup_app_r by (rewrite length_replicate; lia).
      rewrite length_replicate.
      destruct (lookup_lt_is_Some_2 buf (p - (m - length buf))%nat) as [y Hy]; [lia|].
      rewrite Hy. f_equal. apply byte_val_inj. rewrite Hxv.
      replace (Nat.min 8 (0 + n - 8 * (m - 1 - p))) with 8%nat by lia.
      replace (length buf - 1 - (m - 1 - p))%nat with (p - (m - length buf))%nat by lia.
      erewrite nth_lookup_Some by eauto.
      pose proof (byte_val_range y). apply Z.mod_small.
      change (2 ^ Z.of_nat 8) with 256. lia.
    + rewrite lookup_app_l by (rewrite length_replicate; lia).
      rewrite lookup_replicate_2 by lia. f_equal. apply byte_val_inj.
      rewrite Hxv, Z.mod_0_l; [reflexivity|]. apply Z.pow_nonzero; lia.
  - rewrite !lookup_ge_None_2; [reflexivity | |].
    + rewrite length_app, length_replicate. lia.
    + lia.
Qed.

(** ** Evaluator on the identity circuit *)

Lemma map_lookup {A B} (f : A -> B) (l : list A) (i : nat) :
  map f l !! i = option_map f (l !! i).
Proof. revert i; induction l as [|x l IH]; intros [|i]; simpl; auto. Qed.

Lemma idx_nat {A} (l : list A) (i : nat) :
  idx l (Z.of_nat i) = match l !! i with Some x => Ret x | None => Panic end.
Proof.
  unfold idx. rewrite Nat2Z.id.
  destruct (0 <=? Z.of_nat i) eqn:E; [reflexivity|]. apply Z.leb_gt in E. lia.
Qed.

Lemma upd_nat {A} (l : list A) (i : nat) (x : A) :
  (i < length l)%nat -> upd l (Z.of_nat i) x = Ret (<[i := x]> l).
Proof.
  intros H. unfold upd. rewrite Nat2Z.id.
  replace ((0 <=? Z.of_nat i) && (Z.of_nat i <? Z.of_nat (length l))) with true
    by (symmetry; apply andb_true_iff; split; [apply Z.leb_le | apply Z.ltb_lt]; lia).
  reflexivity.
Qed.

Lemma identity_gate_input (n i : nat) :
  (i < n)%nat -> Gates (identity_circ n) !! i = Some (mkGate GateINPUT false []).
Proof.
  intros H. simpl. rewrite lookup_app_l by (rewrite length_replicate; lia).
  apply lookup_replicate_2. exact H.
Qed.

Lemma identity_gate_output (n o : nat) :
  (o < n)%nat ->
  Gates (identity_circ n) !! (n + o)%nat =
    Some (mkGate GateOUTPUT false [Z.of_nat (2 * n + o)]).
Proof.
  intros H. simpl. rewrite lookup_app_r by (rewrite length_replicate; lia).
  rewrite length_replicate, lookup_app_l by (rewrite length_map, length_seq; lia).
  rewrite map_lookup, lookup_seq_lt by lia. simpl. do 4 f_equal. lia.
Qed.

Lemma identity_gate_copy (n o : nat) :
  (o < n)%nat ->
  Gates (identity_circ n) !! (2 * n + o)%nat = Some (mkGate GateCOPY false [Z.of_nat o]).
Proof.
  intros H. simpl. rewrite lookup_app_r by (rewrite length_replicate; lia).
  rewrite length_replicate, lookup_app_r by (rewrite length_map, length_seq; lia).
  rewrite length_map, length_seq, map_lookup, lookup_seq_lt by lia. simpl.
  do 4 f_equal. lia.
Qed.

(** A memoized gate returns its value, whatever [visited] says. *)
Lemma evaluateGate_calculated (c : Circuit) (inputs : list bool) (fuel g : nat)
    (st : EvalState) (b v : bool) :
  visited st !! g = Some b -> calculated st !! g = Some true -> values st !! g = Some v ->
  evaluateGate c inputs (S fuel) (Z.of_nat g) st = Ret (st, (true, v)).
Proof.
  intros Hv Hc Hval. cbn [evaluateGate]. rewrite !idx_nat, Hv, Hc, Hval.
  destruct b; reflexivity.
Qed.

(** Each gate of the identity circuit on [n] wires evaluates to its wire's
    input bit: input gate [i], copy gate [2n+o] and output gate [n+o]. *)
Section IdentityEval.
Variables (n : nat) (bits : list bool).
Hypothesis Hbits : length bits = n.

Lemma id_eval_input (fuel : nat) (st : EvalState) (i : nat) :
  (i < n)%nat -> id_inv n bits st -> visited st !! i = Some false ->
  exists st', evaluateGate (identity_circ n) bits (S fuel) (Z.of_nat i) st =
                Ret (st', (true, nth i bits false)) /\
              id_inv n bits st' /\
              (forall g, g <> i -> visited st' !! g = visited st !! g).
Proof.
  intros Hi (Hv & Hc & Hva & Hcv) Hvis.
  assert (Hmod : (i mod n = i)%nat) by (apply Nat.mod_small; lia).
  destruct (lookup_lt_is_Some_2 (calculated st) i) as [cb Hcb]; [lia|].
  destruct cb.
  - exists st. erewrite evaluateGate_calculated; [| exact Hvis | exact Hcb |].
    + split; [reflexivity|]. split; [split; auto|]. auto.
    + rewrite Hcv by exact Hcb. rewrite Hmod. reflexivity.
  - cbn [evaluateGate]. rewrite !idx_nat, Hvis, Hcb. cbn [obind].
    rewrite upd_nat by lia. cbn [obind]. rewrite identity_gate_input by lia.
    cbn [obind GateType]. rewrite bool_decide_eq_true_2 by reflexivity. cbn [obind].
    unfold gate_result. cbn [GateType]. rewrite idx_nat.
    destruct (lookup_lt_is_Some_2 bits i) as [x Hx]; [lia|]. rewrite Hx. cbn [obind].
    rewrite !upd_nat by (simpl; lia). cbn [obind].
    eexists. split; [erewrite nth_lookup_Some by eauto; reflexivity|].
    split.
    + unfold id_inv; cbn [visited calculated values]. rewrite !length_insert. split; [lia|]. split; [lia|]. split; [lia|].
      intros g Hg. destruct (decide (g = i)) as [->|Hne].
      * rewrite list_lookup_insert_eq by lia. rewrite Hmod.
        erewrite nth_lookup_Some by eauto. reflexivity.
      * rewrite list_lookup_insert_ne in Hg |- * by congruence. auto.
    + intros g Hg. cbn [visited]. rewrite list_lookup_insert_ne by congruence. reflexivity.
Qed.

Lemma id_inv_visit (st : EvalState) (g : nat) :
  id_inv n bits st ->
  id_inv n bits (mkState (<[g := true]> (visited st)) (calculated st) (values st)).
Proof.
  intros (Hv & Hc & Hva & Hcv). unfold id_inv; cbn [visited calculated values].
  rewrite length_insert. auto.
Qed.

Lemma id_inv_memo (st : EvalState) (g : nat) (v : bool) :
  id_inv n bits st -> (g < 3 * n)%nat -> v = nth (g mod n) bits false ->
  id_inv n bits (mkState (visited st) (<[g := true]> (calculated st)) (<[g := v]> (values st))).
Proof.
  intros (Hv & Hc & Hva & Hcv) Hg ->. unfold id_inv; cbn [visited calculated values].
  rewrite !length_insert. split; [lia|]. split; [lia|]. split; [lia|].
  intros g' Hg'. destruct (decide (g' = g)) as [->|Hne].
  - rewrite list_lookup_insert_eq by lia. reflexivity.
  - rewrite list_lookup_insert_ne in Hg' |- * by congruence. auto.
Qed.

Lemma mod_shift (k o : nat) : (o < n)%nat -> ((k * n + o) mod n = o)%nat.
Proof.
  intros Ho. rewrite Nat.add_comm, Nat.Div0.mod_add. apply Nat.mod_small. exact Ho.
Qed.

Lemma id_eval_copy (fuel : nat) (st : EvalState) (o : nat) :
  (o < n)%nat -> id_inv n bits st ->
  visited st !! (2 * n + o)%nat = Some false -> visited st !! o = Some false ->
  exists st', evaluateGate (identity_circ n) bits (S (S fuel)) (Z.of_nat (2 * n + o)%nat) st =
                Ret (st', (true, nth o bits false)) /\
              id_inv n bits st' /\
              (forall g, g <> (2 * n + o)%nat -> g <> o -> visited st' !! g = visited st !! g).
Proof.
  intros Ho Hinv Hvis Hvo.
  pose proof (mod_shift 2 o Ho) as Hmod.
  pose proof Hinv as (Hv & Hc & Hva & Hcv).
  destruct (lookup_lt_is_Some_2 (calculated st) (2 * n + o)) as [cb Hcb]; [lia|].
  destruct cb.
  - exists st. erewrite evaluateGate_calculated; [| exact Hvis | exact Hcb |].
    + split; [reflexivity|]. split; [exact Hinv|]. auto.
    + rewrite Hcv by exact Hcb. rewrite Hmod. reflexivity.
  - remember (S fuel) as f eqn:Hf. cbn [evaluateGate]. rewrite !idx_nat, Hvis, Hcb. cbn [obind].
    rewrite upd_nat by lia. cbn [obind]. rewrite identity_gate_copy by lia.
    cbn [obind GateType InFrom]. rewrite bool_decide_eq_false_2 by discriminate.
    change (idx [Z.of_nat o] 0) with (Ret (Z.of_nat o) : outcome Z). cbn [obind].
    destruct (id_eval_input fuel _ o Ho (id_inv_visit st (2 * n + o)%nat Hinv)) as (st2 & Hr & Hinv2 & Hv2).
    { cbn [visited]. rewrite list_lookup_insert_ne by lia. exact Hvo. }
          subst f. rewrite Hr. cbn [obind]. rewrite bool_decide_eq_false_2 by (simpl; lia).
    unfold gate_result. cbn [GateType InFrom length].
    rewrite bool_decide_eq_true_2 by reflexivity.
    pose proof Hinv2 as (Hv2' & Hc2 & Hva2 & _).
    cbn [obind].       rewrite !upd_nat by lia. cbn [obind].
    eexists. split; [reflexivity|]. split.
    + apply id_inv_memo; [exact Hinv2 | lia | rewrite Hmod; reflexivity].
    + intros g Hg1 Hg2. cbn [visited]. rewrite Hv2 by exact Hg2.
      cbn [visited]. rewrite list_lookup_insert_ne by congruence. reflexivity.
Qed.
Lemma id_eval_output (fuel : nat) (st : EvalState) (o : nat) :
  (o < n)%nat -> id_inv n bits st ->
  visited st !! (n + o)%nat = Some false ->
  visited st !! (2 * n + o)%nat = Some false -> visited st !! o = Some false ->
  exists st', evaluateGate (identity_circ n) bits (S (S (S fuel))) (Z.of_nat (n + o)%nat) st =
                Ret (st', (true, nth o bits false)) /\
              id_inv n bits st'.
Proof.
  intros Ho Hinv Hvn Hvis Hvo.
  pose proof (mod_shift 1 o Ho) as Hmod. rewrite Nat.mul_1_l in Hmod.
  pose proof Hinv as (Hv & Hc & Hva & Hcv).
  destruct (lookup_lt_is_Some_2 (calculated st) (n + o)) as [cb Hcb]; [lia|].
  destruct cb.
  - exists st. erewrite evaluateGate_calculated; [| exact Hvn | exact Hcb |].
    + split; [reflexivity|exact Hinv].
    + rewrite Hcv by exact Hcb. rewrite Hmod. reflexivity.
  - remember (S (S fuel)) as f eqn:Hf. cbn [evaluateGate]. rewrite !idx_nat, Hvn, Hcb. cbn [obind].
    rewrite upd_nat by lia. cbn [obind]. rewrite identity_gate_output by lia.
    cbn [obind GateType InFrom]. rewrite bool_decide_eq_false_2 by discriminate.
    change (idx [Z.of_nat (2 * n + o)%nat] 0) with (Ret (Z.of_nat (2 * n + o)%nat) : outcome Z). cbn [obind].
    destruct (id_eval_copy fuel _ o Ho (id_inv_visit st (n + o)%nat Hinv)) as (st2 & Hr & Hinv2 & _).
    { cbn [visited]. rewrite list_lookup_insert_ne by lia. exact Hvis. }
    { cbn [visited]. rewrite list_lookup_insert_ne by lia. exact Hvo. }
    subst f. rewrite Hr. cbn [obind]. rewrite bool_decide_eq_false_2 by (simpl; lia).
    unfold gate_result. cbn [GateType InFrom length].
    rewrite bool_decide_eq_true_2 by reflexivity.
    pose proof Hinv2 as (Hv2' & Hc2 & Hva2 & _).
    cbn [obind]. rewrite !upd_nat by lia. cbn [obind].
    eexists. split; [reflexivity|].
    apply id_inv_memo; [exact Hinv2 | lia | rewrite Hmod; reflexivity].
Qed.
End IdentityEval.

Lemma wrap64_small (z : Z) : 0 <= z < 2^63 -> wrap64 z = z.
Proof.
  intros Hz. unfold wrap64. rewrite Z.mod_small by lia.
  destruct (Z.leb_spec (2^63) z); lia.
Qed.

Lemma identity_circ_len (n : nat) : length (Gates (identity_circ n)) = (3 * n)%nat.
Proof.
  cbn [identity_circ Gates]. rewrite !length_app, length_replicate, !length_map, length_seq. lia.
Qed.

Lemma identity_output_gate (n i : nat) :
  Z.of_nat (2 * n) < 2^63 -> (i < n)%nat ->
  getOutputGate (identity_circ n) (Z.of_nat i) = Z.of_nat (n + i)%nat.
Proof.
  intros Hn Hi. unfold getOutputGate. cbn [identity_circ NumInputWires].
  rewrite wrap64_small by lia. lia.
Qed.

Lemma id_eval_outputs (n : nat) (bits : list bool) :
  length bits = n -> (1 <= n)%nat -> Z.of_nat (2 * n) < 2^63 ->
  forall k i st result, (i + k = n)%nat -> id_inv n bits st -> length result = n ->
  (forall j, (j < i)%nat -> result !! j = Some (nth j bits false)) ->
  eval_outputs (identity_circ n) bits i k st result = Ret (true, Some bits).
Proof.
  intros Hbits Hn Hbig k. induction k as [|k IH]; intros i st result Hik Hinv Hlen Hres.
  - cbn [eval_outputs]. enough (result = bits) as -> by reflexivity. apply list_eq. intros j.
    destruct (decide (j < n)%nat) as [Hj|Hj].
    + rewrite Hres by lia. destruct (lookup_lt_is_Some_2 bits j) as [x Hx]; [lia|].
      rewrite Hx. erewrite nth_lookup_Some by eauto. reflexivity.
    + rewrite !lookup_ge_None_2 by lia. reflexivity.
  - cbn [eval_outputs]. pose proof Hinv as (Hv & Hc & Hva & Hcv).
    rewrite identity_output_gate by lia. rewrite identity_circ_len.
    replace (S (3 * n)) with (S (S (S (3 * n - 2))))%nat by lia.
    destruct (id_eval_output n bits Hbits (3 * n - 2)
                (mkState (replicate (length (visited st)) false) (calculated st) (values st)) i)
      as (st' & Hr & Hinv').
    + lia.
    + unfold id_inv; cbn [visited calculated values]. rewrite length_replicate. auto.
    + cbn [visited]. apply lookup_replicate_2. lia.
    + cbn [visited]. apply lookup_replicate_2. lia.
    + cbn [visited]. apply lookup_replicate_2. lia.
    + rewrite Hr. cbn [obind]. unfold updn. rewrite decide_True by lia. cbn [obind negb].
      apply IH; [lia | exact Hinv' | rewrite length_insert; exact Hlen |].
      intros j Hj. destruct (decide (j = i)) as [->|Hne].
      * apply list_lookup_insert_eq. lia.
      * rewrite list_lookup_insert_ne by congruence. apply Hres. lia.
Qed.

Lemma id_EvaluateCircuit (n : nat) (bits : list bool) :
  length bits = n -> (1 <= n)%nat -> Z.of_nat (3 * n) < 2^63 ->
  EvaluateCircuit (identity_circ n) bits = Ret (true, Some bits).
Proof.
  intros Hbits Hn Hbig. unfold EvaluateCircuit. cbn [identity_circ NumInputWires NumOutputWires].
  rewrite Hbits, Z.eqb_refl. replace (Z.of_nat n <? 1) with false by (symmetry; apply Z.ltb_ge; lia). cbn [negb orb].
  fold (identity_circ n). rewrite identity_circ_len.
  unfold make. replace (Z.of_nat (3 * n) <? 0) with false by (symmetry; apply Z.ltb_ge; lia).
  replace (Z.of_nat n <? 0) with false by (symmetry; apply Z.ltb_ge; lia). cbn [obind].
  rewrite !Nat2Z.id. apply id_eval_outputs; try lia.
  - unfold id_inv; cbn [visited calculated values]. rewrite !length_replicate.
    split; [lia|]. split; [lia|]. split; [lia|].
    intros g Hg. rewrite lookup_replicate in Hg. destruct Hg as [Hg _]. discriminate.
  - apply length_replicate.
Qed.

Lemma identity_inputs_consistent (n : nat) : inputs_consistent (identity_circ n).
Proof.
  unfold inputs_consistent; cbn [identity_circ NumWiresIV NumInputVars NumInputWires length foldr].
  split; [reflexivity|]. split; [constructor; [lia|constructor] | lia].
Qed.


Lemma identity_pack (n : nat) (buf : list Byte.byte) :
  (8 * length buf <= n)%nat ->
  PadInputsToBoolArray (identity_circ n) [buf] = Ret (Some (map (spec_bit buf) (seq 0 n))).
Proof.
  intros Hn.
  destruct (pack_inputs_some (identity_circ n) [buf] (identity_inputs_consistent n))
    as (res & Hr & Hlen & Hbits & _).
  - cbn [identity_circ NumInputVars length]. lia.
  - intros i b w Hb Hw. destruct i as [|i]; [|discriminate].
    cbn in Hb, Hw. injection Hb as <-. injection Hw as <-. lia.
  - rewrite Hr. do 2 f_equal. cbn [identity_circ NumInputWires] in Hlen.
    apply list_eq. intros j. destruct (decide (j < n)%nat) as [Hj|Hj].
    + rewrite list_lookup_fmap, lookup_seq_lt by exact Hj. cbn [fmap option_fmap option_map].
      apply (Hbits 0%nat buf (Z.of_nat n) j); [reflexivity|reflexivity|lia].
    + rewrite !lookup_ge_None_2; [reflexivity| rewrite length_map, length_seq; lia | lia].
Qed.


(** ** The identity circuit from the builder *)

Lemma add_placeholders_app (c : Circuit) (t : GateType_t) (k : nat) :
  arity_bad t [] = false ->
  add_placeholders c t (Z.of_nat k) = set_Gates c (Gates c ++ replicate k (mkGate t false [])).
Proof.
  intros Ht. unfold add_placeholders. rewrite Nat2Z.id. induction k as [|k IH].
  - destruct c as [a b c0 d e f gs]; cbn. rewrite app_nil_r. reflexivity.
  - rewrite Nat.iter_succ, IH. unfold addGate. rewrite Ht. cbn [fst].
    destruct c as [a b c0 d e f gs]; cbn [set_Gates Gates fst]. rewrite replicate_S_end, app_assoc. reflexivity.
Qed.


Lemma build_gates_step (n i : nat) :
  (i < n)%nat ->
  <[(n + i)%nat := mkGate GateOUTPUT false [Z.of_nat (2 * n + i)]]>
    (build_gates n i ++ [mkGate GateCOPY false [Z.of_nat i]]) = build_gates n (S i).
Proof.
  intros Hi. unfold build_gates.
  replace (n - i)%nat with (S (n - S i)) by lia. rewrite replicate_S.
  rewrite insert_app_l
    by (rewrite !length_app, length_replicate, length_map, length_seq; cbn [length]; lia).
  rewrite insert_app_r_alt by (rewrite length_replicate; lia).
  rewrite insert_app_r_alt by (rewrite length_map, length_seq, length_replicate; lia).
  rewrite length_replicate, length_map, length_seq.
  replace (n + i - n - i)%nat with 0%nat by lia. cbn [app insert list_insert].
  rewrite seq_S, !map_app. cbn [map Nat.add]. rewrite <- !app_assoc. cbn [app]. rewrite <- !app_assoc. reflexivity.
Qed.

Lemma wire_copies_spec (n : nat) :
  Z.of_nat (3 * n) < 2^63 ->
  forall k i, (i + k = n)%nat ->
  wire_copies (circ_with n (build_gates n i)) i k = Ret (circ_with n (build_gates n n)).
Proof.
  intros Hbig k. induction k as [|k IH]; intros i Hik.
  - replace i with n by lia. reflexivity.
  - cbn [wire_copies]. unfold addGate.
    replace (arity_bad GateCOPY [Z.of_nat i]) with false by reflexivity.
    unfold set_Gates, circ_with at 1 2 3 4 5 6 7 8.
    cbn [NumInputWires NumOutputWires NumInputVars NumWiresIV NumOutputVars NumWiresOV Gates].
    assert (Hlen : length (build_gates n i) = (2 * n + i)%nat).
    { unfold build_gates. rewrite !length_app, !length_replicate, !length_map, !length_seq. lia. }
    rewrite length_app, Hlen. cbn [length].
    unfold connectOutputWire, getOutputGate.
    cbn [NumInputWires NumOutputWires NumInputVars NumWiresIV NumOutputVars NumWiresOV Gates].
    rewrite wrap64_small by lia. replace (Z.of_nat n + Z.of_nat i) with (Z.of_nat (n + i)%nat) by lia.
    unfold build_gates at 1.
    replace (n - i)%nat with (S (n - S i)) by lia. rewrite replicate_S.
    rewrite idx_nat, lookup_app_l
      by (rewrite !length_app, length_replicate, length_map, length_seq; cbn [length]; lia).
    rewrite lookup_app_r by (rewrite length_replicate; lia).
    rewrite lookup_app_r by (rewrite length_map, length_seq, length_replicate; lia).
    rewrite length_replicate, length_map, length_seq.
    replace (n + i - n - i)%nat with 0%nat by lia. cbn [app lookup list_lookup obind].
    cbn [GateType ConstVal InFrom length]. rewrite bool_decide_eq_true_2 by reflexivity.
    unfold upd. rewrite length_app, Hlen. cbn [length].
    replace ((0 <=? Z.of_nat (n + i)) && (Z.of_nat (n + i) <? Z.of_nat (2 * n + i + 1)))
      with true by (symmetry; rewrite andb_true_iff, Z.leb_le, Z.ltb_lt; lia).
    cbn [obind]. rewrite Nat2Z.id.
    replace (Z.of_nat (2 * n + i + 1) - 1) with (Z.of_nat (2 * n + i)) by lia.
    cbn [set_Gates Gates NumInputWires NumOutputWires NumInputVars NumWiresIV NumOutputVars NumWiresOV].
cbn [app]. rewrite build_gates_step by lia. apply IH. lia.
Qed.

Lemma identity_build_spec (n : nat) :
  Z.of_nat (3 * n) < 2^63 -> identity_build n = Ret (identity_circ n).
Proof.
  intros Hbig. unfold identity_build, initializeCircuit.
  rewrite !add_placeholders_app by reflexivity. cbn [set_Gates Gates emptyCircuit app].
  replace (replicate n (mkGate GateINPUT false []) ++ replicate n (mkGate GateOUTPUT false []))
    with (build_gates n 0) by (unfold build_gates; cbn; rewrite Nat.sub_0_r, !app_nil_r; reflexivity).
  change (wire_copies (circ_with n (build_gates n 0)) 0 n = Ret (identity_circ n)).
  rewrite (wire_copies_spec n Hbig n 0) by lia.
  unfold build_gates, identity_circ. rewrite Nat.sub_diag. reflexivity.
Qed.

(** C3: the identity circuit on [n] wires, which the builder produces
    ([identity_build]: one [Copy] gate per input wire, connected to the
    matching output wire), maps a byte buffer of at most [n] bits, packed by
    [PadInputsToBoolArray], evaluated and decoded by
    [DecodeOutputVariables], back to the buffer itself, left-padded with
    zero bytes to the [ceil(n/8)] bytes that hold [n] wires. *)
Theorem identity_roundtrip (n : nat) (buf : list Byte.byte) :
  (8 * length buf <= n)%nat -> Z.of_nat (3 * n) < 2^63 ->
  identity_build n = Ret (identity_circ n) /\
  roundtrip n buf = Ret (Some [replicate ((n + 7) / 8 - length buf) Byte.x00 ++ buf]).
Proof.
  intros Hn Hbig. split; [exact (identity_build_spec n Hbig)|]. destruct n as [|n'].
  - destruct buf; [reflexivity|]. cbn [length] in Hn. lia.
  - remember (S n') as n eqn:Hn'. unfold roundtrip. rewrite identity_pack by exact Hn. cbn [obind default from_option id].
    rewrite id_EvaluateCircuit by (rewrite ?length_map, ?length_seq; lia). cbn [obind default from_option id].
    unfold DecodeOutputVariables. cbn [identity_circ NumOutputWires NumOutputVars].
    rewrite length_map, length_seq, Z.eqb_refl. cbn [negb].
    change (make ([] : list Byte.byte) 1) with (Ret [[] : list Byte.byte]). cbn [obind].
    change (Z.to_nat 1) with 1%nat. cbn [decode_loop]. fold (identity_circ n).
    unfold idxn. cbn [identity_circ NumWiresOV lookup list_lookup]. cbn [obind].
    rewrite wrap64_small by lia. rewrite Z.add_0_l.
    unfold slice. rewrite length_map, length_seq.
    replace ((0 <=? 0) && (0 <=? Z.of_nat n) && (Z.of_nat n <=? Z.of_nat n)) with true
      by (symmetry; rewrite !andb_true_iff, !Z.leb_le; lia).
    rewrite Z.sub_0_r, Nat2Z.id, drop_0, take_ge by (rewrite length_map, length_seq; lia).
    cbn [obind]. rewrite boolArrayToBytes_packed by exact Hn. reflexivity.
Qed.

(** Witness of C3: a one-byte buffer on 16 wires. *)
Lemma identity_roundtrip_witness :
  (8 * length [Byte.x05] <= 16)%nat /\ Z.of_nat (3 * 16) < 2^63 /\
  identity_build 16 = Ret (identity_circ 16) /\
  roundtrip 16 [Byte.x05] = Ret (Some [[Byte.x00; Byte.x05]]).
Proof.
  split; [simpl; lia|]. split; [lia|].
  apply (identity_roundtrip 16 [Byte.x05]); [simpl; lia | lia].
Defined.

(** ** Evaluator: cycle detection *)

Ltac inv_bind H a Ha :=
  lazymatch type of H with
  | obind ?m _ = Ret _ =>
      destruct m as [a| |] eqn:Ha; cbn [obind] in H; [|discriminate H|discriminate H]
  end.


Lemma idx_Ret {A} (l : list A) (i : Z) (x : A) :
  idx l i = Ret x -> 0 <= i /\ l !! Z.to_nat i = Some x.
Proof.
  unfold idx. destruct (Z.leb_spec 0 i); [|discriminate].
  destruct (l !! Z.to_nat i) eqn:E; [|discriminate]. intros [= ->]. auto.
Qed.

Lemma upd_Ret {A} (l : list A) (i : Z) (x : A) (l' : list A) :
  upd l i x = Ret l' -> 0 <= i /\ (Z.to_nat i < length l)%nat /\ l' = <[Z.to_nat i := x]> l.
Proof.
  unfold upd. destruct (Z.leb_spec 0 i), (Z.ltb_spec i (Z.of_nat (length l)));
    cbn; try discriminate. intros [= <-]. split; [lia|]. split; [lia|reflexivity].
Qed.

Lemma idx_not_NoFuel {A} (l : list A) (i : Z) : idx l i <> NoFuel.
Proof. unfold idx. destruct (0 <=? i); [destruct (l !! Z.to_nat i)|]; discriminate. Qed.

Lemma upd_not_NoFuel {A} (l : list A) (i : Z) (x : A) : upd l i x <> NoFuel.
Proof. unfold upd. destruct (_ && _); discriminate. Qed.

Lemma gate_result_not_NoFuel g inputs gateID s1 r1 s2 r2 :
  gate_result g inputs gateID s1 r1 s2 r2 <> NoFuel.
Proof.
  unfold gate_result. destruct (GateType g); repeat case_bool_decide;
    destruct s1, s2; cbn; try discriminate.
  all: destruct (idx inputs gateID) eqn:E; cbn; try discriminate.
  all: intros _; exact (idx_not_NoFuel _ _ E).
Qed.

Lemma arity_ok (t : GateType_t) (l : list Z) :
  arity_bad t l = false -> (length l <= 2)%nat /\ (t = GateCONST -> length l = 0%nat).
Proof.
  unfold arity_bad, min_in, max_in. intros H. apply orb_false_iff in H as [_ H].
  apply Z.ltb_ge in H. destruct t; cbn in H; split; intros; try discriminate; lia.
Qed.

Lemma gate_result_success g inputs gateID s1 r1 s2 r2 r :
  GateType g <> GateINPUT -> GateType g <> GateCONST ->
  gate_result g inputs gateID s1 r1 s2 r2 = Ret (true, r) ->
  s1 = true /\ (length (InFrom g) = 2%nat -> s2 = true).
Proof.
  unfold gate_result. intros Hi Hc.
  destruct (GateType g); try congruence; repeat case_bool_decide;
    destruct s1, s2; cbn; intros Hres; try discriminate; split; intros; try congruence; lia.
Qed.





Section Soundness.
Variables (c : Circuit) (inputs : list bool).
Hypothesis Hok : gates_ok c.

End Soundness.

Lemma count_false_mono (l1 l2 : list bool) :
  vis_mono l1 l2 -> (count_false l2 <= count_false l1)%nat.
Proof.
  revert l2. induction l1 as [|a l1 IH]; intros [|b l2] [Hlen Hm]; cbn in *; try lia.
  assert (Hm' : vis_mono l1 l2).
  { split; [lia|]. intros k Hk. exact (Hm (S k) Hk). }
  specialize (IH l2 Hm').
  destruct a; [|destruct b; lia].
  pose proof (Hm 0%nat eq_refl) as H0. cbn in H0. injection H0 as ->. lia.
Qed.

Lemma count_false_insert (l : list bool) (k : nat) :
  l !! k = Some false -> count_false (<[k := true]> l) = (count_false l - 1)%nat.
Proof.
  revert k. induction l as [|a l IH]; intros [|k] Hk; cbn in *; try discriminate.
  - injection Hk as ->. lia.
  - change (((if a then 0 else 1) + count_false (<[k:=true]> l))%nat = ((if a then 0 else 1) + count_false l - 1)%nat). rewrite (IH k Hk). destruct a; [reflexivity|].
    assert (count_false l > 0)%nat; [|lia].
    clear IH. revert k Hk. induction l as [|b l IH]; intros [|k] Hk; cbn in *; try discriminate.
    + injection Hk as ->. lia.
    + specialize (IH k Hk). destruct b; lia.
Qed.

Lemma count_false_replicate (n : nat) : count_false (replicate n false) = n.
Proof. induction n as [|n IH]; cbn; lia. Qed.

Lemma vis_mono_refl (l : list bool) : vis_mono l l.
Proof. split; auto. Qed.

Lemma vis_mono_trans (l1 l2 l3 : list bool) : vis_mono l1 l2 -> vis_mono l2 l3 -> vis_mono l1 l3.
Proof. intros [H1 H2] [H3 H4]. split; [congruence|auto]. Qed.

Lemma vis_mono_insert (l : list bool) (k : nat) : vis_mono l (<[k := true]> l).
Proof.
  split; [rewrite length_insert; reflexivity|]. intros j Hj.
  destruct (decide (j = k)) as [->|Hne].
  - rewrite list_lookup_insert_eq; [reflexivity|]. apply lookup_lt_Some in Hj. exact Hj.
  - rewrite list_lookup_insert_ne by congruence. exact Hj.
Qed.


Ltac finish_tail Hm :=
  match goal with
  | |- context [gate_result ?a ?b ?d ?e ?f ?h ?i] =>
    let succ := fresh "succ" in let res := fresh "res" in let Hgr := fresh "Hgr" in
    destruct (gate_result a b d e f h i) as [[succ res]| |] eqn:Hgr; cbn [obind];
    [ destruct succ;
      [ match goal with
        | |- context [upd (calculated ?s) ?g true] =>
          let cal' := fresh "cal'" in let Hc' := fresh "Hc'" in
          destruct (upd (calculated s) g true) as [cal'| |] eqn:Hc'; cbn [obind];
          [ match goal with
            | |- context [upd (values ?s2) ?g2 ?r] =>
              let vals' := fresh "vals'" in let Hv' := fresh "Hv'" in
              destruct (upd (values s2) g2 r) as [vals'| |] eqn:Hv'; cbn [obind];
              [ exact Hm | exact I | exact (upd_not_NoFuel _ _ _ Hv') ]
            end
          | exact I | exact (upd_not_NoFuel _ _ _ Hc') ]
        end
      | exact Hm ]
    | exact I | exact (gate_result_not_NoFuel _ _ _ _ _ _ _ Hgr) ]
  end.

Lemma evaluateGate_fuel (c : Circuit) (inputs : list bool) :
  forall fuel g st, (count_false (visited st) < fuel)%nat ->
  fuel_post st (evaluateGate c inputs fuel g st).
Proof.
  induction fuel as [|fuel IH]; intros g st Hf; [lia|].
  cbn [evaluateGate].
  destruct (idx (visited st) g) as [vis| |] eqn:Hvis; cbn [obind];
    [| exact I | exact (idx_not_NoFuel _ _ Hvis)].
  destruct vis.
  - destruct (idx (calculated st) g) as [cal| |] eqn:Hcal; cbn [obind];
      [| exact I | exact (idx_not_NoFuel _ _ Hcal)].
    destruct cal; cbn [negb obind].
    +
      destruct (idx (values st) g) as [v| |] eqn:Hv; cbn [obind];
        [apply vis_mono_refl | exact I | exact (idx_not_NoFuel _ _ Hv)].
    + apply vis_mono_refl.
  - destruct (idx (calculated st) g) as [cal| |] eqn:Hcal; cbn [obind];
      [| exact I | exact (idx_not_NoFuel _ _ Hcal)].
    destruct cal.
    + destruct (idx (values st) g) as [v| |] eqn:Hv; cbn [obind];
        [apply vis_mono_refl | exact I | exact (idx_not_NoFuel _ _ Hv)].
    + destruct (upd (visited st) g true) as [vis'| |] eqn:Hvis'; cbn [obind];
        [| exact I | exact (upd_not_NoFuel _ _ _ Hvis')].
      apply upd_Ret in Hvis' as (Hg & _ & ->).
      apply idx_Ret in Hvis as [_ Hvis].
      pose proof (count_false_insert _ _ Hvis) as Hcnt.
      pose proof (vis_mono_insert (visited st) (Z.to_nat g)) as Hm1.
      assert (Hlt : (count_false (<[Z.to_nat g := true]> (visited st)) < fuel)%nat).
      { rewrite Hcnt. assert (count_false (visited st) > 0)%nat; [|lia].
        clear -Hvis. revert Hvis. generalize (Z.to_nat g). induction (visited st) as [|b l IHl];
          intros [|k] Hk; cbn in *; try discriminate.
        + injection Hk as ->. lia.
        + specialize (IHl k Hk). destruct b; lia. }
      destruct (idx (Gates c) g) as [gate| |] eqn:Hgate; cbn [obind];
        [| exact I | exact (idx_not_NoFuel _ _ Hgate)].
      case_bool_decide as Hin; cbn [obind].
      * finish_tail Hm1.
      * destruct (idx (InFrom gate) 0) as [p0| |] eqn:Hp0; cbn [obind];
          [| exact I | exact (idx_not_NoFuel _ _ Hp0)].
        pose proof (IH p0 (mkState (<[Z.to_nat g := true]> (visited st)) (calculated st) (values st)) Hlt) as H1.
        destruct (evaluateGate c inputs fuel p0 _) as [[st2 [s1 r1]]| |] eqn:He1; cbn [obind];
          [| exact I | contradiction].
        cbn [fuel_post visited] in H1.
        pose proof (vis_mono_trans _ _ _ Hm1 H1) as Hm2.
        case_bool_decide as Hlen; cbn [obind].
        -- destruct (idx (InFrom gate) 1) as [p1| |] eqn:Hp1; cbn [obind];
             [| exact I | exact (idx_not_NoFuel _ _ Hp1)].
           assert (Hlt2 : (count_false (visited st2) < fuel)%nat)
             by (pose proof (count_false_mono _ _ H1); lia).
           pose proof (IH p1 st2 Hlt2) as H2.
           destruct (evaluateGate c inputs fuel p1 st2) as [[st3 [s2 r2]]| |] eqn:He2; cbn [obind];
             [| exact I | contradiction].
           cbn [fuel_post] in H2.
           pose proof (vis_mono_trans _ _ _ Hm2 H2) as Hm3.
           finish_tail Hm3.
        -- finish_tail Hm2.
Qed.

Lemma updn_not_NoFuel {A} (l : list A) (i : nat) (x : A) : updn l i x <> NoFuel.
Proof. unfold updn. destruct (decide _); discriminate. Qed.

Lemma validCircuit_gates_ok (c : Circuit) : validCircuit c = true -> gates_ok c.
Proof.
  unfold validCircuit. destruct (_ <? _); [discriminate|].
  intros H k gate Hk. apply forallb_forall with (x := gate) in H.
  - apply negb_true_iff in H. exact H.
  - apply list_elem_of_In. eapply list_elem_of_lookup_2. exact Hk.
Qed.


(** * Further properties *)

(** ** [int64] bit codecs *)

Lemma wrap64_mod (a : Z) : wrap64 a mod 2^64 = a mod 2^64.
Proof.
  unfold wrap64. pose proof (Z.mod_pos_bound a (2^64) ltac:(lia)).
  destruct (Z.leb_spec (2^63) (a mod 2^64)).
  - replace (a mod 2 ^ 64 - 2 ^ 64) with (a mod 2^64 + (-1) * 2^64) by lia.
    rewrite Z.mod_add by lia. apply Z.mod_mod. lia.
  - apply Z.mod_mod. lia.
Qed.

Lemma wrap64_congr (a b : Z) : a mod 2^64 = b mod 2^64 -> wrap64 a = wrap64 b.
Proof. unfold wrap64. intros ->. reflexivity. Qed.

Lemma wrap64_range (a : Z) : -2^63 <= wrap64 a < 2^63.
Proof.
  unfold wrap64. pose proof (Z.mod_pos_bound a (2^64) ltac:(lia)).
  destruct (Z.leb_spec (2^63) (a mod 2^64)); lia.
Qed.

Lemma wrap64_id (a : Z) : -2^63 <= a < 2^63 -> wrap64 a = a.
Proof.
  intros H. unfold wrap64. destruct (Z.leb_spec 0 a).
  - rewrite Z.mod_small by lia. destruct (Z.leb_spec (2^63) a); lia.
  - replace (a mod 2^64) with (a + 2^64).
    + destruct (Z.leb_spec (2^63) (a + 2^64)); lia.
    + apply (Z.mod_unique _ _ (-1)); lia.
Qed.

Lemma wrap64_idem (a : Z) : wrap64 (wrap64 a) = wrap64 a.
Proof. apply wrap64_id, wrap64_range. Qed.

Lemma int64_bit_testbit (x : Z) (i : nat) :
  -2^63 <= x < 2^63 -> (i < 64)%nat -> int64_bit x i = Z.testbit x (Z.of_nat i).
Proof.
  intros Hx Hi. unfold int64_bit.
  destruct (decide (i < 63)%nat) as [Hlt|Hge].
  - rewrite wrap64_small.
    + apply land_shiftl_testbit. lia.
    + rewrite Z.shiftl_1_l. split; [apply Z.pow_nonneg; lia|].
      apply Z.pow_lt_mono_r; lia.
  - assert (i = 63%nat) as -> by lia.
    replace (wrap64 (Z.shiftl 1 (Z.of_nat 63))) with (- 2^63) by reflexivity.
    assert (Hm : forall n, 0 <= n -> Z.testbit (- 2^63) n = (63 <=? n)).
    { intros n Hn. rewrite Z.bits_opp by lia.
      replace (Z.pred (2^63)) with (Z.ones 63) by reflexivity.
      rewrite Z.testbit_ones_nonneg by lia.
      destruct (Z.ltb_spec n 63), (Z.leb_spec 63 n); try lia; reflexivity. }
    destruct (Z.ltb_spec x 0) as [Hneg|Hpos].
    + assert (Hb : Z.testbit x 63 = true).
      { pose proof (Z.testbit_spec' x 63 ltac:(lia)) as Hs.
        replace (x / 2^63) with (-1) in Hs by (apply (Z.div_unique _ _ _ (x + 2^63)); lia).
        destruct (Z.testbit x 63); [reflexivity | discriminate]. }
      change (Z.of_nat 63) with 63. rewrite Hb.
      apply negb_true_iff, Z.eqb_neq. intros H0.
      assert (Z.testbit (Z.land x (- 2^63)) 63 = true)
        by (rewrite Z.land_spec, Hb, Hm by lia; reflexivity).
      rewrite H0, Z.bits_0 in H. discriminate.
    + assert (Hhigh : forall n, 63 <= n -> Z.testbit x n = false).
      { intros n Hn. pose proof (Z.testbit_spec' x n ltac:(lia)) as Hs.
        rewrite Z.div_small in Hs.
        - destruct (Z.testbit x n); [discriminate | reflexivity].
        - split; [lia|]. apply Z.lt_le_trans with (2^63); [lia|].
          apply Z.pow_le_mono_r; lia. }
      change (Z.of_nat 63) with 63. rewrite (Hhigh 63) by lia.
      apply negb_false_iff, Z.eqb_eq. apply Z.bits_inj'. intros n Hn.
      rewrite Z.land_spec, Z.bits_0, Hm by lia.
      destruct (Z.leb_spec 63 n); [rewrite Hhigh by lia|]; apply andb_false_r || apply andb_false_l.
Qed.

Lemma bits_value_testbit (l : list bool) :
  forall n, 0 <= n -> Z.testbit (bits_value l) n = nth (Z.to_nat n) l false.
Proof.
  induction l as [|b l IH]; intros n Hn.
  - simpl. rewrite Z.bits_0. destruct (Z.to_nat n); reflexivity.
  - cbn [bits_value fold_right]. fold (bits_value l).
    destruct (Z.eq_dec n 0) as [->|Hne].
    + rewrite Z.testbit_0_r. reflexivity.
    + replace n with (Z.succ (n - 1)) by lia.
      rewrite Z.testbit_succ_r, IH by lia.
      replace (Z.to_nat (Z.succ (n - 1))) with (S (Z.to_nat (n - 1))) by lia. reflexivity.
Qed.

Lemma bits_value_range (l : list bool) : 0 <= bits_value l < 2 ^ Z.of_nat (length l).
Proof.
  induction l as [|b l IH]; [simpl; lia|].
  cbn [bits_value fold_right length]. fold (bits_value l).
  rewrite Nat2Z.inj_succ, Z.pow_succ_r by lia. destruct b; simpl; lia.
Qed.

Lemma bits_value_app (l1 l2 : list bool) :
  bits_value (l1 ++ l2) = bits_value l1 + 2 ^ Z.of_nat (length l1) * bits_value l2.
Proof.
  induction l1 as [|b l1 IH]; [simpl; lia|].
  cbn [bits_value fold_right length app]. fold (bits_value (l1 ++ l2)). fold (bits_value l1).
  rewrite IH, Nat2Z.inj_succ, Z.pow_succ_r by lia. lia.
Qed.

Lemma bits_value_map_testbit (x : Z) (n : nat) :
  bits_value (map (fun i => Z.testbit x (Z.of_nat i)) (seq 0 n)) = x mod 2 ^ Z.of_nat n.
Proof.
  apply Z.bits_inj'. intros m Hm. rewrite bits_value_testbit by lia.
  destruct (decide (Z.to_nat m < n)%nat) as [Hlt|Hge].
  - rewrite Z.mod_pow2_bits_low by lia.
    rewrite (nth_lookup_Some _ _ false (Z.testbit x (Z.of_nat (Z.to_nat m)))).
    + rewrite Z2Nat.id by lia. reflexivity.
    + rewrite map_lookup, lookup_seq_lt by lia. reflexivity.
  - rewrite Z.mod_pow2_bits_high by lia. apply nth_overflow.
    rewrite length_map, length_seq. lia.
Qed.

Lemma b2i_loop_value (bs : list bool) :
  forall i r, wrap64 r = r ->
  b2i_loop bs i r = wrap64 (r + bits_value bs * 2 ^ Z.of_nat i).
Proof.
  induction bs as [|b bs IH]; intros i r Hr.
  - simpl. rewrite Z.add_0_r. symmetry. exact Hr.
  - cbn [b2i_loop]. rewrite IH.
    2: { destruct b; [apply wrap64_idem | exact Hr]. }
    apply wrap64_congr. cbn [bits_value fold_right]. fold (bits_value bs).
    rewrite Nat2Z.inj_succ, Z.pow_succ_r by lia.
    destruct b.
    + rewrite <- Z.add_mod_idemp_l by lia. rewrite wrap64_mod.
      rewrite Z.add_mod_idemp_l by lia.
      set (s := Z.shiftl 1 (Z.of_nat i)). set (X := bits_value bs * (2 * 2 ^ Z.of_nat i)).
      replace (r + wrap64 s + X) with ((r + X) + wrap64 s) by lia.
      rewrite <- Z.add_mod_idemp_r by lia. rewrite wrap64_mod.
      rewrite Z.add_mod_idemp_r by lia. subst s X. rewrite Z.shiftl_1_l. f_equal. simpl. lia.
    + f_equal. simpl. lia.
Qed.

Lemma drop_insert_here {A} (l : list A) (k : nat) (x : A) :
  (k < length l)%nat -> drop k (<[k := x]> l) = x :: drop (S k) l.
Proof.
  revert k. induction l as [|a l IH]; intros [|k] Hk; cbn in *; try lia; [reflexivity|].
  apply IH. lia.
Qed.

Lemma i64_loop_spec (x : Z) (k : nat) :
  forall res, (k <= length res)%nat ->
  i64_loop x k res = Ret (map (int64_bit x) (seq 0 k) ++ drop k res).
Proof.
  induction k as [|k IH]; intros res Hk; [reflexivity|].
  cbn [i64_loop]. unfold updn. case_decide as Hl; [|lia]. cbn [obind].
  rewrite IH by (rewrite length_insert; lia).
  rewrite drop_insert_here by lia.
  rewrite seq_S, map_app, <- app_assoc. reflexivity.
Qed.

Lemma int64toBoolArray_bits (x : Z) :
  -2^63 <= x < 2^63 -> int64toBoolArray x = Ret (int64_bits x).
Proof.
  intros Hx. unfold int64toBoolArray.
  rewrite i64_loop_spec by (rewrite length_replicate; lia).
  rewrite drop_ge by (rewrite length_replicate; lia). rewrite app_nil_r.
  f_equal. apply map_ext_in. intros i Hi. apply in_seq in Hi.
  apply int64_bit_testbit; [exact Hx | lia].
Qed.

Lemma boolArrayToInt64_value (bs : list bool) : boolArrayToInt64 bs = wrap64 (bits_value bs).
Proof.
  unfold boolArrayToInt64. rewrite b2i_loop_value by reflexivity. f_equal. simpl. lia.
Qed.

Lemma boolArrayToInt64_bits (x : Z) :
  -2^63 <= x < 2^63 -> boolArrayToInt64 (int64_bits x) = x.
Proof.
  intros Hx. rewrite boolArrayToInt64_value. unfold int64_bits.
  rewrite bits_value_map_testbit. change (2 ^ Z.of_nat 64) with (2^64).
  rewrite (wrap64_congr _ x) by (apply Z.mod_mod; lia). apply wrap64_id, Hx.
Qed.

Lemma i64a_loop_spec (xs : list Z) :
  Forall (fun x => -2^63 <= x < 2^63) xs ->
  forall res, i64a_loop xs res = Ret (res ++ concat (map int64_bits xs)).
Proof.
  induction 1 as [|x xs Hx Hxs IH]; intros res.
  - simpl. rewrite app_nil_r. reflexivity.
  - cbn [i64a_loop]. rewrite int64toBoolArray_bits by exact Hx. cbn [obind].
    rewrite IH, <- app_assoc. reflexivity.
Qed.

Lemma int64_bits_length (x : Z) : length (int64_bits x) = 64%nat.
Proof. unfold int64_bits. rewrite length_map, length_seq. reflexivity. Qed.

Lemma concat_int64_bits (xs : list Z) :
  length (concat (map int64_bits xs)) = (64 * length xs)%nat /\
  forall k x, xs !! k = Some x ->
    take 64 (drop (64 * k) (concat (map int64_bits xs))) = int64_bits x.
Proof.
  induction xs as [|y xs [IHl IHk]]; [split; [reflexivity | intros k x Hk; discriminate]|].
  cbn [map concat length]. rewrite length_app, int64_bits_length, IHl. split; [lia|].
  intros [|k] x Hk; cbn in Hk.
  - injection Hk as <-. rewrite Nat.mul_0_r, drop_0.
    rewrite <- (int64_bits_length y). apply take_app_length.
  - replace (64 * S k)%nat with (64 + 64 * k)%nat by lia.
    rewrite <- drop_drop.
    assert (Hd : drop 64 (int64_bits y ++ concat (map int64_bits xs)) = concat (map int64_bits xs))
      by (rewrite <- (int64_bits_length y); apply drop_app_length).
    rewrite Hd. exact (IHk k x Hk).
Qed.

(** X1: [int64toBoolArray] maps an [int64] to its 64 two's complement bits,
    least significant first; entry 63 is the sign bit. *)
Theorem int64toBoolArray_spec (x : Z) :
  -2^63 <= x < 2^63 ->
  exists l, int64toBoolArray x = Ret l /\ length l = 64%nat /\
    forall i, (i < 64)%nat -> l !! i = Some (Z.testbit x (Z.of_nat i)).
Proof.
  intros Hx. exists (int64_bits x). split; [apply int64toBoolArray_bits, Hx|].
  split; [apply int64_bits_length|]. intros i Hi. unfold int64_bits.
  rewrite map_lookup, lookup_seq_lt by exact Hi. reflexivity.
Qed.

Lemma int64toBoolArray_spec_witness :
  -2^63 <= -1 < 2^63 /\
  exists l, int64toBoolArray (-1) = Ret l /\ length l = 64%nat /\
    forall i, (i < 64)%nat -> l !! i = Some (Z.testbit (-1) (Z.of_nat i)).
Proof. split; [lia|]. apply int64toBoolArray_spec. lia. Defined.

(** X2: [boolArrayToInt64] inverts [int64toBoolArray] on every [int64]. *)
Theorem int64_bool_roundtrip (x : Z) :
  -2^63 <= x < 2^63 ->
  (bits <- int64toBoolArray x ;; Ret (boolArrayToInt64 bits)) = Ret x.
Proof.
  intros Hx. rewrite int64toBoolArray_bits by exact Hx. cbn [obind].
  rewrite boolArrayToInt64_bits by exact Hx. reflexivity.
Qed.

(** X3: [int64toBoolArray] inverts [boolArrayToInt64] on every list of 64 bits. *)
Theorem bool_int64_roundtrip (bs : list bool) :
  length bs = 64%nat -> int64toBoolArray (boolArrayToInt64 bs) = Ret bs.
Proof.
  intros Hlen. rewrite int64toBoolArray_bits
    by (rewrite boolArrayToInt64_value; apply wrap64_range).
  f_equal. apply list_eq. intros i. unfold int64_bits.
  rewrite map_lookup. destruct (decide (i < 64)%nat) as [Hi|Hi].
  - rewrite lookup_seq_lt by exact Hi. cbn [option_map].
    destruct (lookup_lt_is_Some_2 bs i) as [b Hb]; [lia|]. rewrite Hb. f_equal.
    rewrite boolArrayToInt64_value.
    rewrite <- (Z.mod_pow2_bits_low _ 64) by lia. rewrite wrap64_mod.
    rewrite Z.mod_pow2_bits_low, bits_value_testbit by lia.
    rewrite Nat2Z.id. apply nth_lookup_Some with (d := false) in Hb. exact Hb.
  - rewrite lookup_seq_ge by lia. symmetry. apply lookup_ge_None_2. lia.
Qed.

(** X4: [boolArrayToInt64] only depends on the first 64 bits of its input:
    from bit 64 on, [1 << i] is 0 in [int64]. *)
Theorem boolArrayToInt64_take (bs : list bool) :
  boolArrayToInt64 bs = boolArrayToInt64 (take 64 bs).
Proof.
  rewrite !boolArrayToInt64_value. destruct (decide (64 <= length bs)%nat) as [Hge|Hlt].
  - apply wrap64_congr. rewrite <- (take_drop 64 bs) at 1. rewrite bits_value_app.
    rewrite length_take_le by exact Hge. change (2 ^ Z.of_nat 64) with (2^64).
    rewrite Z.mul_comm. apply Z.mod_add. lia.
  - rewrite take_ge by lia. reflexivity.
Qed.

(** X5: [int64ArraytoBoolArray] concatenates 64 bits per element, and the
    [k]-th block of 64 bits converts back to element [k]. *)
Theorem int64ArraytoBoolArray_spec (xs : list Z) :
  Forall (fun x => -2^63 <= x < 2^63) xs ->
  exists l, int64ArraytoBoolArray xs = Ret l /\ length l = (64 * length xs)%nat /\
    forall k x, xs !! k = Some x -> boolArrayToInt64 (take 64 (drop (64 * k) l)) = x.
Proof.
  intros Hxs. exists (concat (map int64_bits xs)).
  split; [unfold int64ArraytoBoolArray; rewrite (i64a_loop_spec xs Hxs); reflexivity|].
  destruct (concat_int64_bits xs) as [Hl Hk]. split; [exact Hl|].
  intros k x Hx. rewrite (Hk k x Hx). apply boolArrayToInt64_bits.
  rewrite Forall_lookup in Hxs. exact (Hxs k x Hx).
Qed.

Lemma int64_bool_roundtrip_witness :
  -2^63 <= -5 < 2^63 /\ (bits <- int64toBoolArray (-5) ;; Ret (boolArrayToInt64 bits)) = Ret (-5).
Proof. split; [lia|]. apply int64_bool_roundtrip. lia. Defined.

Lemma bool_int64_roundtrip_witness :
  length (replicate 63 false ++ [true]) = 64%nat /\
  int64toBoolArray (boolArrayToInt64 (replicate 63 false ++ [true])) = Ret (replicate 63 false ++ [true]).
Proof. split; [reflexivity|]. apply bool_int64_roundtrip. reflexivity. Defined.

Lemma int64ArraytoBoolArray_spec_witness :
  Forall (fun x => -2^63 <= x < 2^63) sample_int64s /\
  exists l, int64ArraytoBoolArray sample_int64s = Ret l /\ length l = (64 * length sample_int64s)%nat /\
    forall k x, sample_int64s !! k = Some x -> boolArrayToInt64 (take 64 (drop (64 * k) l)) = x.
Proof.
  assert (H : Forall (fun x => -2^63 <= x < 2^63) sample_int64s) by (repeat constructor; lia).
  split; [exact H|]. exact (int64ArraytoBoolArray_spec sample_int64s H).
Defined.

(** ** Byte codec and output decoding *)

Lemma bytes_loop_tgt (tgt : nat -> Z) (n : nat) :
  forall k i res, (i + k <= n)%nat -> bytes_inv_tgt tgt ((n + 7) / 8) i res ->
  exists res', bytes_loop (map (fun j => Z.testbit (tgt (j / 8)%nat) (Z.of_nat (j mod 8))) (seq i k)) i res = Ret res' /\
               bytes_inv_tgt tgt ((n + 7) / 8) (i + k) res'.
Proof.
  set (m := ((n + 7) / 8)%nat).
  induction k as [|k IH]; intros i res Hik [Hlen Hinv].
  - exists res. rewrite Nat.add_0_r. split; [reflexivity | split; assumption].
  - assert (Hq : (i / 8 < m)%nat).
    { subst m. apply Nat.Div0.div_lt_upper_bound.
      pose proof (Nat.div_mod (n + 7) 8 ltac:(lia)).
      pose proof (Nat.mod_upper_bound (n + 7) 8 ltac:(lia)). lia. }
    pose proof (Nat.div_mod i 8 ltac:(lia)) as Hdm.
    pose proof (Nat.mod_upper_bound i 8 ltac:(lia)) as Hmb.
    destruct (Hinv (i / 8)%nat Hq) as (x & Hx & Hxv).
    assert (Hexp : Nat.min 8 (i - 8 * (i / 8)) = (i mod 8)%nat) by lia.
    rewrite Hexp in Hxv.
    set (X := tgt (i / 8)%nat) in Hxv.
    pose proof (mod_pow2_succ X (Z.of_nat (i mod 8)) ltac:(lia)) as Hsucc.
    assert (Hstep : exists res1,
      (if Z.testbit X (Z.of_nat (i mod 8)) then
         x' <- idxn res (length res - i / 8 - 1) ;;
         updn res (length res - i / 8 - 1) (byte_add_bit x' (i mod 8))
       else Ret res) = Ret res1 /\ bytes_inv_tgt tgt m (S i) res1).
    { assert (Hother : forall k', (k' < m)%nat -> k' <> (i / 8)%nat ->
                Nat.min 8 (S i - 8 * k') = Nat.min 8 (i - 8 * k')) by lia.
      destruct (Z.testbit X (Z.of_nat (i mod 8))) eqn:Hbit.
      - unfold idxn, updn. rewrite Hlen.
        replace (m - i / 8 - 1)%nat with (m - 1 - i / 8)%nat by lia.
        rewrite Hx. cbn [obind]. case_decide; [|lia].
        eexists. split; [reflexivity|]. split; [rewrite length_insert; exact Hlen|].
        intros k' Hk'. destruct (decide (k' = i / 8)%nat) as [->|Hne].
        + eexists. rewrite list_lookup_insert_eq by lia. split; [reflexivity|].
          unfold byte_add_bit. rewrite byte_val_of_Z, Z.shiftl_1_l.
          replace (Nat.min 8 (S i - 8 * (i / 8))) with (S (i mod 8)) by lia.
          rewrite Nat2Z.inj_succ, <- Z.add_1_r. fold X.
          rewrite Hsucc, Hxv.
          pose proof (Z.mod_pos_bound X (2 ^ Z.of_nat (i mod 8)) ltac:(lia)).
          assert (2 ^ Z.of_nat (i mod 8) <= 128).
          { replace 128 with (2 ^ 7) by reflexivity. apply Z.pow_le_mono_r; lia. }
          apply Z.mod_small. lia.
        + destruct (Hinv k' Hk') as (y & Hy & Hyv).
          exists y. rewrite list_lookup_insert_ne by lia. split; [exact Hy|].
          rewrite Hother by lia. exact Hyv.
      - exists res. split; [reflexivity|]. split; [exact Hlen|].
        intros k' Hk'. destruct (Hinv k' Hk') as (y & Hy & Hyv).
        exists y. split; [exact Hy|].
        destruct (decide (k' = i / 8)%nat) as [->|Hne].
        + replace (Nat.min 8 (S i - 8 * (i / 8))) with (S (i mod 8)) by lia.
          rewrite Nat2Z.inj_succ, <- Z.add_1_r. fold X. rewrite Hsucc.
          assert (x = y) by congruence. subst y. lia.
        + rewrite Hother by lia. exact Hyv. }
    destruct Hstep as (res1 & Hr1 & Hinv1).
    destruct (IH (S i) res1 ltac:(lia) Hinv1) as (res' & Hr' & Hinv').
    exists res'. cbn [seq map bytes_loop]. cbv beta. fold X. rewrite Hr1. cbn [obind].
    replace (i + S k)%nat with (S i + k)%nat by lia. split; [exact Hr'| exact Hinv'].
Qed.

Lemma chunk_value_bit (bs : list bool) (j : nat) :
  Z.testbit (chunk_value bs (j / 8)) (Z.of_nat (j mod 8)) = nth j bs false.
Proof.
  unfold chunk_value. rewrite bits_value_testbit by lia. rewrite Nat2Z.id.
  rewrite !nth_lookup. pose proof (Nat.mod_upper_bound j 8 ltac:(lia)).
  rewrite lookup_take, lookup_drop. case_decide; [|lia].
  pose proof (Nat.div_mod j 8 ltac:(lia)) as Hdm. rewrite <- Hdm. reflexivity.
Qed.

Lemma chunk_value_range (bs : list bool) (k : nat) :
  0 <= chunk_value bs k < 2 ^ Z.of_nat (Nat.min 8 (length bs - 8 * k)).
Proof.
  unfold chunk_value. pose proof (bits_value_range (take 8 (drop (8 * k) bs))) as H.
  rewrite length_take, length_drop in H. exact H.
Qed.

Lemma boolArrayToBytes_bits (bs : list bool) :
  exists bytes, boolArrayToBytes bs = Ret bytes /\
    length bytes = ((length bs + 7) / 8)%nat /\
    forall j, pack_bit bytes j = Ret (nth j bs false).
Proof.
  set (n := length bs). set (m := ((n + 7) / 8)%nat).
  assert (Hbs : bs = map (fun j => Z.testbit (chunk_value bs (j / 8)%nat) (Z.of_nat (j mod 8))) (seq 0 n)).
  { apply list_eq. intros j. rewrite map_lookup.
    destruct (decide (j < n)%nat) as [Hj|Hj].
    - rewrite lookup_seq_lt by exact Hj. cbn [option_map]. rewrite chunk_value_bit.
      destruct (lookup_lt_is_Some_2 bs j) as [b Hb]; [exact Hj|].
      rewrite Hb. f_equal. symmetry. apply nth_lookup_Some with (d := false) in Hb. exact Hb.
    - rewrite lookup_seq_ge by lia. apply lookup_ge_None_2. lia. }
  destruct (bytes_loop_tgt (chunk_value bs) n n 0 (replicate m Byte.x00)) as (res & Hr & Hlen & Hinv).
  { lia. }
  { split; [apply length_replicate|]. intros k Hk. exists Byte.x00.
    rewrite lookup_replicate_2 by lia. split; [reflexivity|].
    replace (Nat.min 8 (0 - 8 * k)) with 0%nat by lia. simpl.
    rewrite Z.mod_1_r. reflexivity. }
  fold m in Hinv, Hlen.
  exists res. split.
  { unfold boolArrayToBytes. fold n m. rewrite Hbs at 1. exact Hr. }
  split; [exact Hlen|].
  intros j. rewrite pack_bit_spec, spec_bit_from_end. f_equal.
  unfold byte_from_end. rewrite Hlen. case_decide as Hk.
  - destruct (Hinv (j / 8)%nat Hk) as (x & Hx & Hxv).
    erewrite nth_lookup_Some by exact Hx. rewrite Hxv.
    pose proof (chunk_value_range bs (j / 8)) as Hcr. fold n in Hcr.
    rewrite Z.mod_small by (replace (0 + n - 8 * (j / 8))%nat with (n - 8 * (j / 8))%nat by lia; lia).
    apply chunk_value_bit.
  - rewrite Z.bits_0. symmetry. apply nth_overflow. fold n.
    pose proof (Nat.div_mod (n + 7) 8 ltac:(lia)) as H1.
    pose proof (Nat.mod_upper_bound (n + 7) 8 ltac:(lia)) as H2.
    pose proof (Nat.div_mod j 8 ltac:(lia)) as H3. fold m in H1, H2. lia.
Qed.

Section DecodeLoop.
Variables (c : Circuit) (ws : list bool).
Hypothesis Hws : Z.of_nat (length ws) < 2^63.

Lemma decode_loop_spec (k : nat) :
  forall (wovs : list Z) (i cw : nat),
  drop i (NumWiresOV c) = wovs -> Forall (Z.le 0) wovs -> (k <= length wovs)%nat ->
  (cw + sum_list_with Z.to_nat (take k wovs) <= length ws)%nat ->
  exists r, decode_loop c ws i k (Z.of_nat cw) = Ret r /\ length r = k /\
    forall m w, (m < k)%nat -> wovs !! m = Some w ->
      exists bytes, r !! m = Some bytes /\
        boolArrayToBytes (take (Z.to_nat w) (drop (cw + sum_list_with Z.to_nat (take m wovs)) ws))
          = Ret bytes.
Proof.
  induction k as [|k IH]; intros wovs i cw Hd Hnn Hk Hsum.
  - exists []. split; [reflexivity|]. split; [reflexivity|]. intros; lia.
  - destruct wovs as [|w wovs']; [simpl in Hk; lia|].
    destruct (drop_cons_lookup _ _ _ _ Hd) as [Hw Hd'].
    pose proof (Forall_inv Hnn) as Hw0. pose proof (Forall_inv_tail Hnn) as Hnn'.
    simpl in Hk, Hsum.
    assert (Hwrap : wrap64 (Z.of_nat cw + w) = Z.of_nat (cw + Z.to_nat w)).
    { rewrite wrap64_small by lia. lia. }
    cbn [decode_loop]. unfold idxn. rewrite Hw. cbn [obind]. rewrite Hwrap.
    unfold slice.
    replace ((0 <=? Z.of_nat cw) && (Z.of_nat cw <=? Z.of_nat (cw + Z.to_nat w))
             && (Z.of_nat (cw + Z.to_nat w) <=? Z.of_nat (length ws))) with true
      by (symmetry; rewrite !andb_true_iff, !Z.leb_le; lia).
    cbn [obind].
    replace (Z.to_nat (Z.of_nat (cw + Z.to_nat w) - Z.of_nat cw)) with (Z.to_nat w) by lia.
    rewrite Nat2Z.id.
    destruct (boolArrayToBytes_bits (take (Z.to_nat w) (drop cw ws))) as (bytes & Hb & _).
    rewrite Hb. cbn [obind].
    destruct (IH wovs' (S i) (cw + Z.to_nat w)%nat Hd' Hnn' ltac:(lia) ltac:(lia))
      as (r & Hr & Hlen & Hm).
    rewrite Hr. cbn [obind]. exists (bytes :: r).
    split; [reflexivity|]. split; [simpl; lia|].
    intros [|m] w' Hmk Hw'.
    + cbn in Hw'. injection Hw' as <-. exists bytes. split; [reflexivity|].
      simpl. rewrite Nat.add_0_r. exact Hb.
    + cbn in Hw'. destruct (Hm m w' ltac:(lia) Hw') as (bytes' & Hb1 & Hb2).
      exists bytes'. split; [exact Hb1|]. simpl.
      replace (cw + (Z.to_nat w + sum_list_with Z.to_nat (take m wovs')))%nat
        with (cw + Z.to_nat w + sum_list_with Z.to_nat (take m wovs'))%nat by lia.
      exact Hb2.
Qed.
End DecodeLoop.

Lemma decode_some (c : Circuit) (ws : list bool) :
  outputs_consistent c -> Z.of_nat (length ws) = NumOutputWires c -> NumOutputWires c < 2^63 ->
  exists r, DecodeOutputVariables c ws = Ret (Some r) /\
    Z.of_nat (length r) = NumOutputVars c /\
    forall i w, NumWiresOV c !! i = Some w ->
      exists bytes, r !! i = Some bytes /\
        boolArrayToBytes (take (Z.to_nat w) (drop (ov_offset c i) ws)) = Ret bytes.
Proof.
  intros (Hlen & Hnn & Hsum) Hws Hbig.
  destruct (foldr_add_to_nat _ Hnn) as [Hs1 Hs2]. rewrite Hsum in Hs1, Hs2.
  unfold DecodeOutputVariables.
  replace (negb (NumOutputWires c =? Z.of_nat (length ws))) with false
    by (symmetry; apply negb_false_iff, Z.eqb_eq; lia).
  unfold make. replace (NumOutputVars c <? 0) with false by (symmetry; apply Z.ltb_ge; lia).
  cbn [obind].
  destruct (decode_loop_spec c ws ltac:(lia) (Z.to_nat (NumOutputVars c)) (NumWiresOV c) 0 0)
    as (r & Hr & Hrl & Hm); [apply drop_0 | exact Hnn | lia | |].
  { rewrite take_ge by lia. lia. }
  change 0 with (Z.of_nat 0). rewrite Hr. cbn [obind]. exists r. split; [reflexivity|]. split; [lia|].
  intros i w Hw. apply (Hm i w); [apply lookup_lt_Some in Hw; lia | exact Hw].
Qed.

Lemma sum_take_S (l : list Z) (i : nat) (w : Z) :
  l !! i = Some w ->
  sum_list_with Z.to_nat (take (S i) l) = (sum_list_with Z.to_nat (take i l) + Z.to_nat w)%nat.
Proof. intros H. rewrite (take_S_r _ _ _ H), sum_list_with_app. simpl. lia. Qed.

Lemma sum_take_mono (l : list Z) (i i' : nat) :
  (i <= i')%nat -> (sum_list_with Z.to_nat (take i l) <= sum_list_with Z.to_nat (take i' l))%nat.
Proof.
  intros H. replace i' with (i + (i' - i))%nat by lia.
  rewrite <- take_take_drop, sum_list_with_app. lia.
Qed.

Lemma wire_cover (l : list Z) (t : nat) :
  (t < sum_list_with Z.to_nat l)%nat ->
  exists i w j, l !! i = Some w /\ (j < Z.to_nat w)%nat /\
    t = (sum_list_with Z.to_nat (take i l) + j)%nat.
Proof.
  revert t. induction l as [|w l IH]; intros t Ht; [simpl in Ht; lia|].
  simpl in Ht. destruct (decide (t < Z.to_nat w)%nat) as [Hlt|Hge].
  - exists 0%nat, w, t. simpl. split; [reflexivity|]. split; lia.
  - destruct (IH (t - Z.to_nat w)%nat ltac:(lia)) as (i & w' & j & Hi & Hj & Ht').
    exists (S i), w', j. simpl. split; [exact Hi|]. split; [exact Hj | lia].
Qed.

Lemma consistent_outputs (c : Circuit) :
  inputs_consistent c -> same_partition c -> outputs_consistent c.
Proof.
  intros (H1 & H2 & H3) (E1 & E2 & E3). unfold outputs_consistent.
  rewrite E1, E2, E3. auto.
Qed.

Lemma bytes_pack_bit (bs : list bool) (bytes : list Byte.byte) :
  boolArrayToBytes bs = Ret bytes ->
  length bytes = ((length bs + 7) / 8)%nat /\ forall j, spec_bit bytes j = nth j bs false.
Proof.
  intros H. destruct (boolArrayToBytes_bits bs) as (bytes' & H' & Hl & Hb).
  rewrite H in H'. injection H' as <-. split; [exact Hl|].
  intros j. specialize (Hb j). rewrite pack_bit_spec in Hb. injection Hb as ->. reflexivity.
Qed.

(** X8: when the output partition is the input partition and every width is a
    multiple of 8, [PadInputsToBoolArray] after [DecodeOutputVariables]
    gives back the wire vector. *)
Theorem decode_pack_roundtrip (c : Circuit) (ws : list bool) :
  inputs_consistent c -> same_partition c -> NumInputWires c < 2^63 ->
  Forall (fun w => w mod 8 = 0) (NumWiresIV c) ->
  Z.of_nat (length ws) = NumOutputWires c ->
  (bufs <- DecodeOutputVariables c ws ;; PadInputsToBoolArray c (default [] bufs))
    = Ret (Some ws).
Proof.
  intros Hc Hp Hbig Hal Hws.
  pose proof Hc as (Hlen & Hnn & Hsum).
  destruct (foldr_add_to_nat _ Hnn) as [Hs1 Hs2]. rewrite Hsum in Hs1, Hs2.
  pose proof Hp as (E1 & E2 & E3).
  destruct (decode_some c ws (consistent_outputs c Hc Hp) Hws ltac:(lia))
    as (r & Hr & Hrl & Hri).
  rewrite Hr. cbn [obind default from_option id].
  unfold ov_offset in Hri. rewrite E3 in Hri.
  (* each decoded byte slice has exactly the variable's width *)
  assert (Hdec : forall i w, NumWiresIV c !! i = Some w ->
    exists b, r !! i = Some b /\ (Z.of_nat (length b) * 8 = w) /\
      forall j, (j < Z.to_nat w)%nat -> spec_bit b j = nth (iv_offset c i + j) ws false).
  { intros i w Hw. destruct (Hri i w Hw) as (b & Hb & Hbytes).
    destruct (bytes_pack_bit _ _ Hbytes) as [Hbl Hbits].
    pose proof (Forall_lookup_1 _ _ _ _ Hnn Hw) as Hw0.
    pose proof (Forall_lookup_1 _ _ _ _ Hal Hw) as Hw8. cbv beta in Hw0, Hw8.
    assert (Hfit : (iv_offset c i + Z.to_nat w <= length ws)%nat).
    { unfold iv_offset. rewrite <- (sum_take_S _ _ _ Hw).
      pose proof (sum_take_le (NumWiresIV c) (S i)). lia. }
    rewrite length_take, length_drop in Hbl. unfold iv_offset in Hfit.
    exists b. split; [exact Hb|]. split.
    - rewrite Hbl. replace (Nat.min (Z.to_nat w) (length ws - sum_list_with Z.to_nat (take i (NumWiresIV c))))
        with (Z.to_nat w) by lia.
      pose proof (Z.div_mod w 8 ltac:(lia)).
      pose proof (Nat.div_mod (Z.to_nat w + 7) 8 ltac:(lia)).
      pose proof (Nat.mod_upper_bound (Z.to_nat w + 7) 8 ltac:(lia)).
      lia.
    - intros j Hj. rewrite Hbits, !nth_lookup, lookup_take, lookup_drop.
      case_decide; [reflexivity | lia]. }
  destruct (pack_inputs_some c r Hc) as (res & Hpad & Hresl & Hin & _).
  { lia. }
  { intros i b w Hb Hw. destruct (Hdec i w Hw) as (b' & Hb' & Hl' & _).
    rewrite Hb in Hb'. injection Hb' as <-. lia. }
  rewrite Hpad. f_equal. f_equal. apply list_eq. intros t.
  destruct (decide (t < length ws)%nat) as [Ht|Ht].
  - destruct (wire_cover (NumWiresIV c) t ltac:(lia)) as (i & w & j & Hw & Hj & ->).
    destruct (Hdec i w Hw) as (b & Hb & _ & Hbits).
    unfold iv_offset in Hin, Hbits. rewrite (Hin i b w j Hb Hw Hj).
    rewrite Hbits by exact Hj.
    destruct (lookup_lt_is_Some_2 ws (sum_list_with Z.to_nat (take i (NumWiresIV c)) + j)%nat)
      as [x Hx]; [lia|].
    rewrite Hx. f_equal. apply nth_lookup_Some with (d := false) in Hx. exact Hx.
  - rewrite !lookup_ge_None_2 by lia. reflexivity.
Qed.

(** X9: when the output partition is the input partition, [DecodeOutputVariables]
    after [PadInputsToBoolArray] gives back each buffer left-padded with zero
    bytes to its variable's byte width. *)
Theorem pack_decode_roundtrip (c : Circuit) (bufs : list (list Byte.byte)) :
  inputs_consistent c -> same_partition c -> NumInputWires c < 2^63 ->
  Z.of_nat (length bufs) <= NumInputVars c ->
  (forall i b w, bufs !! i = Some b -> NumWiresIV c !! i = Some w ->
                 Z.of_nat (length b) * 8 <= w) ->
  (ws <- PadInputsToBoolArray c bufs ;; DecodeOutputVariables c (default [] ws))
    = Ret (Some (map (padded_var c bufs) (seq 0 (Z.to_nat (NumInputVars c))))).
Proof.
  intros Hc Hp Hbig Hle Hfit.
  pose proof Hc as (Hlen & Hnn & Hsum).
  destruct (foldr_add_to_nat _ Hnn) as [Hs1 Hs2]. rewrite Hsum in Hs1, Hs2.
  pose proof Hp as (E1 & E2 & E3).
  destruct (pack_inputs_some c bufs Hc Hle Hfit) as (res & Hpad & Hresl & Hin & Hrest).
  rewrite Hpad. cbn [obind default from_option id].
  destruct (decode_some c res (consistent_outputs c Hc Hp) ltac:(lia) ltac:(lia))
    as (r & Hr & Hrl & Hri).
  rewrite Hr. f_equal. f_equal. apply list_eq. intros i.
  rewrite map_lookup. destruct (decide (i < Z.to_nat (NumInputVars c))%nat) as [Hi|Hi].
  - rewrite lookup_seq_lt by exact Hi. cbn [option_map].
    destruct (lookup_lt_is_Some_2 (NumWiresIV c) i) as [w Hw]; [lia|].
    rewrite <- E3 in Hw. destruct (Hri i w Hw) as (bytes & Hb & Hbytes).
    rewrite E3 in Hw. unfold ov_offset in Hbytes. rewrite E3 in Hbytes.
    rewrite Hb. f_equal.
    pose proof (Forall_lookup_1 _ _ _ _ Hnn Hw) as Hw0. cbv beta in Hw0.
    set (b := nth i bufs []).
    assert (Hbw : (8 * length b <= Z.to_nat w)%nat).
    { subst b. destruct (decide (i < length bufs)%nat) as [Hib|Hib].
      - destruct (lookup_lt_is_Some_2 bufs i Hib) as [b' Hb'].
        erewrite nth_lookup_Some by exact Hb'. pose proof (Hfit i b' w Hb' Hw). lia.
      - rewrite nth_overflow by lia. simpl. lia. }
    assert (Hslice : take (Z.to_nat w) (drop (sum_list_with Z.to_nat (take i (NumWiresIV c))) res)
                     = map (spec_bit b) (seq 0 (Z.to_nat w))).
    { assert (Hfitw : (sum_list_with Z.to_nat (take i (NumWiresIV c)) + Z.to_nat w <= length res)%nat).
      { rewrite <- (sum_take_S _ _ _ Hw).
        pose proof (sum_take_le (NumWiresIV c) (S i)). lia. }
      apply list_eq. intros j. rewrite lookup_take, lookup_drop, map_lookup.
      case_decide as Hj.
      - rewrite lookup_seq_lt by exact Hj. cbn [option_map].
        subst b. destruct (decide (i < length bufs)%nat) as [Hib|Hib].
        + destruct (lookup_lt_is_Some_2 bufs i Hib) as [b' Hb'].
          erewrite nth_lookup_Some by exact Hb'.
          exact (Hin i b' w j Hb' Hw Hj).
        + rewrite nth_overflow by lia. rewrite Hrest.
          * unfold spec_bit. case_decide; [simpl in *; lia | reflexivity].
          * unfold iv_offset. split; [|lia].
            pose proof (sum_take_mono (NumWiresIV c) (length bufs) i ltac:(lia)). lia.
      - rewrite lookup_seq_ge by lia. reflexivity. }
    rewrite Hslice, boolArrayToBytes_packed in Hbytes by exact Hbw.
    injection Hbytes as <-. unfold padded_var. rewrite (nth_lookup_Some _ _ _ _ Hw). reflexivity.
  - rewrite lookup_seq_ge by lia. apply lookup_ge_None_2. lia.
Qed.

(** X10: when the output partition is the input partition and some width is not a
    multiple of 8, [PadInputsToBoolArray] after [DecodeOutputVariables]
    returns nil: the decoded buffer is wider than its variable. *)
Theorem decode_pack_unaligned (c : Circuit) (ws : list bool) :
  inputs_consistent c -> same_partition c -> NumInputWires c < 2^63 ->
  Z.of_nat (length ws) = NumOutputWires c ->
  (exists i w, NumWiresIV c !! i = Some w /\ w mod 8 <> 0) ->
  (bufs <- DecodeOutputVariables c ws ;; PadInputsToBoolArray c (default [] bufs))
    = Ret None.
Proof.
  intros Hc Hp Hbig Hws (i & w & Hw & Hw8).
  pose proof Hc as (Hlen & Hnn & Hsum).
  destruct (foldr_add_to_nat _ Hnn) as [Hs1 Hs2]. rewrite Hsum in Hs1, Hs2.
  pose proof Hp as (E1 & E2 & E3).
  destruct (decode_some c ws (consistent_outputs c Hc Hp) Hws ltac:(lia))
    as (r & Hr & Hrl & Hri).
  rewrite Hr. cbn [obind default from_option id].
  rewrite <- E3 in Hw. destruct (Hri i w Hw) as (b & Hb & Hbytes). rewrite E3 in Hw.
  destruct (bytes_pack_bit _ _ Hbytes) as [Hbl _].
  pose proof (Forall_lookup_1 _ _ _ _ Hnn Hw) as Hw0. cbv beta in Hw0.
  assert (Hfitw : (ov_offset c i + Z.to_nat w <= length ws)%nat).
  { unfold ov_offset. rewrite E3, <- (sum_take_S _ _ _ Hw).
    pose proof (sum_take_le (NumWiresIV c) (S i)). lia. }
  rewrite length_take, length_drop in Hbl.
  unfold PadInputsToBoolArray, make.
  replace (NumInputWires c <? 0) with false by (symmetry; apply Z.ltb_ge; lia).
  cbn [obind].
  replace (NumInputVars c <? Z.of_nat (length r)) with false by (symmetry; apply Z.ltb_ge; lia).
  apply (pack_loop_none c r (NumWiresIV c)); [apply drop_0 | exact Hnn | lia | |].
  - rewrite length_replicate. rewrite take_ge by lia. lia.
  - exists i, b, w. split; [exact Hb|]. split; [exact Hw|].
    rewrite Hbl. replace (Nat.min (Z.to_nat w) (length ws - ov_offset c i)) with (Z.to_nat w) by lia.
    pose proof (Z.div_mod w 8 ltac:(lia)). pose proof (Z.mod_pos_bound w 8 ltac:(lia)).
    pose proof (Nat.div_mod (Z.to_nat w + 7) 8 ltac:(lia)).
    pose proof (Nat.mod_upper_bound (Z.to_nat w + 7) 8 ltac:(lia)).
    lia.
Qed.

(** X6: [boolArrayToBytes] packs [n] bits into [(n+7)/8] bytes, bit [j] being
    bit [j mod 8] of byte [j/8] counted from the end. *)
Theorem boolArrayToBytes_spec (bs : list bool) :
  exists bytes, boolArrayToBytes bs = Ret bytes /\
    length bytes = ((length bs + 7) / 8)%nat /\
    forall j, spec_bit bytes j = nth j bs false.
Proof.
  destruct (boolArrayToBytes_bits bs) as (bytes & H & Hl & Hb).
  exists bytes. split; [exact H|]. split; [exact Hl|].
  intros j. specialize (Hb j). rewrite pack_bit_spec in Hb. injection Hb as ->. reflexivity.
Qed.

(** X7: on consistent output widths, [DecodeOutputVariables] of a wire vector
    of length [NumOutputWires] returns one buffer per output variable, the
    [boolArrayToBytes] of that variable's wires. *)
Theorem DecodeOutputVariables_spec (c : Circuit) (ws : list bool) :
  outputs_consistent c -> Z.of_nat (length ws) = NumOutputWires c -> NumOutputWires c < 2^63 ->
  exists r, DecodeOutputVariables c ws = Ret (Some r) /\
    Z.of_nat (length r) = NumOutputVars c /\
    forall i w, NumWiresOV c !! i = Some w ->
      exists bytes, r !! i = Some bytes /\
        boolArrayToBytes (take (Z.to_nat w) (drop (ov_offset c i) ws)) = Ret bytes.
Proof. exact (decode_some c ws). Qed.

Lemma DecodeOutputVariables_spec_witness :
  outputs_consistent two_var_circ /\
  Z.of_nat (length two_var_wires) = NumOutputWires two_var_circ /\
  NumOutputWires two_var_circ < 2^63 /\
  exists r, DecodeOutputVariables two_var_circ two_var_wires = Ret (Some r) /\
    Z.of_nat (length r) = NumOutputVars two_var_circ /\
    forall i w, NumWiresOV two_var_circ !! i = Some w ->
      exists bytes, r !! i = Some bytes /\
        boolArrayToBytes (take (Z.to_nat w) (drop (ov_offset two_var_circ i) two_var_wires))
        = Ret bytes.
Proof.
  assert (H1 : outputs_consistent two_var_circ)
    by (split; [reflexivity|]; split; [repeat constructor; lia | reflexivity]).
  assert (H2 : Z.of_nat (length two_var_wires) = NumOutputWires two_var_circ) by reflexivity.
  assert (H3 : NumOutputWires two_var_circ < 2^63) by (cbn; lia).
  split; [exact H1|]. split; [exact H2|]. split; [exact H3|].
  exact (DecodeOutputVariables_spec two_var_circ two_var_wires H1 H2 H3).
Defined.

Lemma decode_pack_roundtrip_witness :
  inputs_consistent two_var_in /\ same_partition two_var_in /\ NumInputWires two_var_in < 2^63 /\
  Forall (fun w => w mod 8 = 0) (NumWiresIV two_var_in) /\
  Z.of_nat (length (two_var_wires ++ [true; true; false; true])) = NumOutputWires two_var_in /\
  (bufs <- DecodeOutputVariables two_var_in (two_var_wires ++ [true; true; false; true]) ;;
   PadInputsToBoolArray two_var_in (default [] bufs))
  = Ret (Some (two_var_wires ++ [true; true; false; true])).
Proof.
  assert (H1 : inputs_consistent two_var_in)
    by (split; [reflexivity|]; split; [repeat constructor; lia | reflexivity]).
  assert (H2 : same_partition two_var_in) by (split; [reflexivity|]; split; reflexivity).
  assert (H3 : NumInputWires two_var_in < 2^63) by (cbn; lia).
  assert (H4 : Forall (fun w => w mod 8 = 0) (NumWiresIV two_var_in)) by (repeat constructor).
  assert (H5 : Z.of_nat (length (two_var_wires ++ [true; true; false; true]))
               = NumOutputWires two_var_in) by reflexivity.
  split; [exact H1|]. split; [exact H2|]. split; [exact H3|]. split; [exact H4|].
  split; [exact H5|].
  exact (decode_pack_roundtrip two_var_in _ H1 H2 H3 H4 H5).
Defined.

Lemma pack_decode_roundtrip_witness :
  let bufs := [[Byte.x05]] in
  inputs_consistent two_var_in /\ same_partition two_var_in /\ NumInputWires two_var_in < 2^63 /\
  Z.of_nat (length bufs) <= NumInputVars two_var_in /\
  (forall i b w, bufs !! i = Some b -> NumWiresIV two_var_in !! i = Some w ->
                 Z.of_nat (length b) * 8 <= w) /\
  (ws <- PadInputsToBoolArray two_var_in bufs ;; DecodeOutputVariables two_var_in (default [] ws))
    = Ret (Some (map (padded_var two_var_in bufs) (seq 0 (Z.to_nat (NumInputVars two_var_in))))).
Proof.
  cbv zeta.
  assert (H1 : inputs_consistent two_var_in)
    by (split; [reflexivity|]; split; [repeat constructor; lia | reflexivity]).
  assert (H2 : same_partition two_var_in) by (split; [reflexivity|]; split; reflexivity).
  assert (H3 : NumInputWires two_var_in < 2^63) by (cbn; lia).
  assert (H4 : Z.of_nat (length [[Byte.x05]]) <= NumInputVars two_var_in) by (cbn; lia).
  assert (H5 : forall i b w, [[Byte.x05]] !! i = Some b -> NumWiresIV two_var_in !! i = Some w ->
                 Z.of_nat (length b) * 8 <= w).
  { intros [|[|i]] b w Hb Hw; cbn in Hb, Hw; try discriminate.
    injection Hb as <-. injection Hw as <-. cbn. lia. }
  split; [exact H1|]. split; [exact H2|]. split; [exact H3|]. split; [exact H4|].
  split; [exact H5|].
  exact (pack_decode_roundtrip two_var_in _ H1 H2 H3 H4 H5).
Defined.

Lemma decode_pack_unaligned_witness :
  inputs_consistent two_var_circ /\ same_partition two_var_circ /\
  NumInputWires two_var_circ < 2^63 /\
  Z.of_nat (length two_var_wires) = NumOutputWires two_var_circ /\
  (exists i w, NumWiresIV two_var_circ !! i = Some w /\ w mod 8 <> 0) /\
  (bufs <- DecodeOutputVariables two_var_circ two_var_wires ;;
   PadInputsToBoolArray two_var_circ (default [] bufs)) = Ret None.
Proof.
  assert (H1 : inputs_consistent two_var_circ)
    by (split; [reflexivity|]; split; [repeat constructor; lia | reflexivity]).
  assert (H2 : same_partition two_var_circ) by (split; [reflexivity|]; split; reflexivity).
  assert (H3 : NumInputWires two_var_circ < 2^63) by (cbn; lia).
  assert (H4 : Z.of_nat (length two_var_wires) = NumOutputWires two_var_circ) by reflexivity.
  assert (H5 : exists i w, NumWiresIV two_var_circ !! i = Some w /\ w mod 8 <> 0)
    by (exists 0%nat, 4; split; [reflexivity | compute; discriminate]).
  split; [exact H1|]. split; [exact H2|]. split; [exact H3|]. split; [exact H4|].
  split; [exact H5|].
  exact (decode_pack_unaligned two_var_circ _ H1 H2 H3 H4 H5).
Defined.

(** ** Builder: layout and validity *)

Lemma add_placeholders_fields c t n :
  arity_bad t [] = false ->
  add_placeholders c t n =
  mkCircuit (NumInputWires c) (NumOutputWires c) (NumInputVars c) (NumWiresIV c)
    (NumOutputVars c) (NumWiresOV c) (Gates c ++ replicate (Z.to_nat n) (mkGate t false [])).
Proof.
  intros Ht. unfold add_placeholders. induction (Z.to_nat n) as [|m IH].
  - destruct c; cbn. rewrite app_nil_r. reflexivity.
  - rewrite Nat.iter_succ, IH. unfold addGate. rewrite Ht. cbn.
    rewrite <- app_assoc. f_equal. f_equal. rewrite <- replicate_cons_app. reflexivity.
Qed.

Lemma initializeCircuit_eq c ni no niv nov wiv wov :
  initializeCircuit c ni no niv nov wiv wov =
  mkCircuit ni no niv wiv nov wov
    (Gates c ++ replicate (Z.to_nat ni) (mkGate GateINPUT false [])
             ++ replicate (Z.to_nat no) (mkGate GateOUTPUT false [])).
Proof.
  unfold initializeCircuit.
  rewrite add_placeholders_fields by reflexivity.
  rewrite add_placeholders_fields by reflexivity. cbn.
  rewrite app_assoc. reflexivity.
Qed.

(** X14: [initializeCircuit] records the six counts and appends [numInputWires]
    [Input] gates, then [numOutputWires] [Output] gates with no predecessor,
    to the gates already there (none for a negative count). *)
Theorem initializeCircuit_layout c ni no niv nov wiv wov :
  let c' := initializeCircuit c ni no niv nov wiv wov in
  NumInputWires c' = ni /\ NumOutputWires c' = no /\ NumInputVars c' = niv /\
  NumOutputVars c' = nov /\ NumWiresIV c' = wiv /\ NumWiresOV c' = wov /\
  Gates c' = Gates c ++ replicate (Z.to_nat ni) (mkGate GateINPUT false [])
                     ++ replicate (Z.to_nat no) (mkGate GateOUTPUT false []).
Proof.
  cbv zeta. rewrite initializeCircuit_eq. cbn. repeat split.
Qed.

(** X15: on the zero circuit with non-negative wire counts whose sum fits in an
    [int], [initializeCircuit] yields a valid circuit in which input wire [i]
    addresses an [Input] gate and output wire [o] an [Output] gate. *)
Theorem initializeCircuit_empty_valid ni no niv nov wiv wov :
  0 <= ni -> 0 <= no -> ni + no < 2^63 ->
  let c := initializeCircuit emptyCircuit ni no niv nov wiv wov in
  validCircuit c = true /\
  (forall i, 0 <= i < ni -> exists g, Gates c !! Z.to_nat (getInputGate c i) = Some g /\
                                     GateType g = GateINPUT) /\
  (forall o, 0 <= o < no -> 0 <= getOutputGate c o /\
     exists g, Gates c !! Z.to_nat (getOutputGate c o) = Some g /\ GateType g = GateOUTPUT).
Proof.
  intros Hni Hno Hsum. cbv zeta. rewrite initializeCircuit_eq. cbn [Gates emptyCircuit app].
  assert (Hw : wrap64 (ni + no) = ni + no) by (apply wrap64_small; lia).
  split; [|split].
  - unfold validCircuit. cbn [Gates NumInputWires NumOutputWires]. rewrite Hw.
    rewrite length_app, !length_replicate.
    replace (Z.of_nat (Z.to_nat ni + Z.to_nat no) <? ni + no) with false
      by (symmetry; apply Z.ltb_ge; lia).
    apply forallb_forall. intros g Hg. apply list_elem_of_In, elem_of_app in Hg.
    destruct Hg as [Hg|Hg]; apply elem_of_replicate in Hg as [-> _]; reflexivity.
  - intros i Hi. unfold getInputGate. cbn [Gates].
    exists (mkGate GateINPUT false []). split; [|reflexivity].
    rewrite lookup_app_l by (rewrite length_replicate; lia).
    apply lookup_replicate. split; [reflexivity | lia].
  - intros o Ho. unfold getOutputGate. cbn [NumInputWires Gates].
    rewrite wrap64_small by lia. split; [lia|].
    exists (mkGate GateOUTPUT false []). split; [|reflexivity].
    rewrite lookup_app_r by (rewrite length_replicate; lia).
    rewrite length_replicate. apply lookup_replicate. split; [reflexivity | lia].
Qed.

(** X16: [addGate2] appends a two-input gate exactly for [And], [Or] and [Xor]
    and returns its index; for any other type it returns -1 and leaves the
    circuit as it was. *)
Theorem addGate2_types c t a b :
  addGate2 c t a b =
  if bool_decide (t = GateAND \/ t = GateOR \/ t = GateXOR)
  then (set_Gates c (Gates c ++ [mkGate t false [a; b]]), Z.of_nat (length (Gates c)))
  else (c, -1).
Proof.
  unfold addGate2, addGate.
  destruct t; cbn; try reflexivity; rewrite length_app; cbn; f_equal; lia.
Qed.

Lemma validCircuit_true c :
  validCircuit c = true <->
  wrap64 (NumInputWires c + NumOutputWires c) <= Z.of_nat (length (Gates c)) /\
  forall k g, Gates c !! k = Some g -> arity_bad (GateType g) (InFrom g) = false.
Proof.
  unfold validCircuit. destruct (Z.of_nat _ <? _) eqn:E.
  - apply Z.ltb_lt in E. split; [discriminate | lia].
  - apply Z.ltb_ge in E. rewrite forallb_forall. split.
    + intros H. split; [lia|]. intros k g Hk. apply negb_true_iff, H.
      apply list_elem_of_In, list_elem_of_lookup. eauto.
    + intros [_ H] g Hg. apply list_elem_of_In, list_elem_of_lookup in Hg as [k Hk].
      apply negb_true_iff. eapply H. exact Hk.
Qed.

(** X17: [addGate] keeps a valid circuit valid, whether it appends the gate or
    rejects it. *)
Theorem addGate_valid c t v inFrom :
  validCircuit c = true -> validCircuit (fst (addGate c t v inFrom)) = true.
Proof.
  intros Hv. unfold addGate. destruct (arity_bad t inFrom) eqn:Ha; [exact Hv|].
  apply validCircuit_true in Hv as [Hn Hg]. apply validCircuit_true. cbn.
  rewrite length_app. cbn. split; [lia|].
  intros k g Hk. apply lookup_app_Some in Hk as [Hk|[_ Hk]]; [eapply Hg; exact Hk|].
  apply list_lookup_singleton_Some in Hk as [_ <-]. exact Ha.
Qed.

(** X18: when [connectOutputWire] wires a gate of a valid circuit (returns true),
    the circuit stays valid exactly when the addressed gate is an [Output]
    gate; wiring an [Input] or [Const] gate makes it invalid. *)
Theorem connectOutputWire_valid c gateNum outputNum c' :
  validCircuit c = true ->
  connectOutputWire c gateNum outputNum = Ret (c', true) ->
  exists g, Gates c !! Z.to_nat (getOutputGate c outputNum) = Some g /\
    (validCircuit c' = true <-> GateType g = GateOUTPUT).
Proof.
  intros Hv H. unfold connectOutputWire in H.
  destruct (idx (Gates c) (getOutputGate c outputNum)) as [g| |] eqn:Hi; try discriminate H.
  cbn [obind] in H. unfold idx in Hi.
  destruct (0 <=? getOutputGate c outputNum) eqn:Hpos; [|discriminate Hi].
  destruct (Gates c !! _) as [g'|] eqn:Hl; [injection Hi as ->|discriminate Hi].
  exists g. split; [reflexivity|].
  case_bool_decide as Hlen; [|discriminate H].
  unfold upd in H. destruct (_ && _) eqn:Hr; [|discriminate H]. cbn [obind] in H.
  injection H as <-.
  apply validCircuit_true in Hv as [Hn Hg].
  pose proof (Hg _ _ Hl) as Hag.
  rewrite validCircuit_true. cbn [Gates set_Gates NumInputWires NumOutputWires].
  rewrite length_insert. split.
  - intros [_ Hall].
    assert (Hnew := Hall (Z.to_nat (getOutputGate c outputNum))
                      (mkGate (GateType g) (ConstVal g) (InFrom g ++ [gateNum]))).
    rewrite list_lookup_insert_eq in Hnew by (apply lookup_lt_Some in Hl; exact Hl).
    specialize (Hnew eq_refl). cbn in Hnew. apply nil_length_inv in Hlen.
    rewrite Hlen in Hnew, Hag. destruct (GateType g); vm_compute in Hnew, Hag; congruence.
  - intros Ht. split; [lia|]. intros k h Hk.
    destruct (decide (k = Z.to_nat (getOutputGate c outputNum))) as [->|Hne].
    + rewrite list_lookup_insert_eq in Hk by (apply lookup_lt_Some in Hl; exact Hl).
      injection Hk as <-. cbn. rewrite Ht. apply nil_length_inv in Hlen. rewrite Hlen.
      reflexivity.
    + rewrite list_lookup_insert_ne in Hk by congruence. eapply Hg. exact Hk.
Qed.

Lemma initializeCircuit_empty_valid_witness :
  0 <= 2 /\ 0 <= 1 /\ 2 + 1 < 2^63 /\
  let c := initializeCircuit emptyCircuit 2 1 1 1 [2] [1] in
  validCircuit c = true /\
  (forall i, 0 <= i < 2 -> exists g, Gates c !! Z.to_nat (getInputGate c i) = Some g /\
                                    GateType g = GateINPUT) /\
  (forall o, 0 <= o < 1 -> 0 <= getOutputGate c o /\
     exists g, Gates c !! Z.to_nat (getOutputGate c o) = Some g /\ GateType g = GateOUTPUT).
Proof.
  split; [lia|]. split; [lia|]. split; [lia|].
  exact (initializeCircuit_empty_valid 2 1 1 1 [2] [1] ltac:(lia) ltac:(lia) ltac:(lia)).
Defined.

Lemma addGate_valid_witness :
  validCircuit (initializeCircuit emptyCircuit 2 1 1 1 [2] [1]) = true /\
  validCircuit (fst (addGate (initializeCircuit emptyCircuit 2 1 1 1 [2] [1]) GateAND false [0; 1])) = true.
Proof.
  assert (H : validCircuit (initializeCircuit emptyCircuit 2 1 1 1 [2] [1]) = true)
    by reflexivity.
  split; [exact H|]. exact (addGate_valid _ GateAND false [0; 1] H).
Defined.

Lemma connectOutputWire_valid_witness :
  let c := initializeCircuit emptyCircuit 1 1 1 1 [1] [1] in
  let c' := mkCircuit 1 1 1 [1] 1 [1] [mkGate GateINPUT false []; mkGate GateOUTPUT false [0]] in
  validCircuit c = true /\ connectOutputWire c 0 0 = Ret (c', true) /\
  exists g, Gates c !! Z.to_nat (getOutputGate c 0) = Some g /\
    (validCircuit c' = true <-> GateType g = GateOUTPUT).
Proof.
  cbv zeta.
  assert (H1 : validCircuit (initializeCircuit emptyCircuit 1 1 1 1 [1] [1]) = true)
    by reflexivity.
  assert (H2 : connectOutputWire (initializeCircuit emptyCircuit 1 1 1 1 [1] [1]) 0 0 =
               Ret (mkCircuit 1 1 1 [1] 1 [1]
                      [mkGate GateINPUT false []; mkGate GateOUTPUT false [0]], true))
    by (vm_compute; reflexivity).
  split; [exact H1|]. split; [exact H2|].
  exact (connectOutputWire_valid _ 0 0 _ H1 H2).
Defined.

(** ** Evaluator: meaning of the results *)

Lemma gate_result_sound (c : Circuit) (inputs : list bool) (g : Z) (gate : Gate)
    (p0 : Z) (rest : list Z) s1 r1 s2 r2 r :
  0 <= g -> Gates c !! Z.to_nat g = Some gate -> GateType gate <> GateINPUT ->
  GateType gate <> GateCONST -> InFrom gate = p0 :: rest ->
  (s1 = true -> denote c inputs p0 r1) ->
  (forall p1, rest = [p1] -> s2 = true -> denote c inputs p1 r2) ->
  gate_result gate inputs g s1 r1 s2 r2 = Ret (true, r) ->
  denote c inputs g r.
Proof.
  intros Hg Hgate Hin Hc Hfrom H1 H2 Hres. unfold gate_result in Hres.
  rewrite Hfrom in Hres. cbn [length] in Hres.
  destruct (GateType gate) eqn:Ht; try congruence;
    destruct rest as [|p1 [|p2 rest]]; cbn [length] in Hres;
    repeat case_bool_decide; try lia; try discriminate;
    destruct s1, s2; cbn [andb eqb] in Hres; try discriminate;
    injection Hres as <-.
  all: try (eapply denote_wire; eauto; fail).
  all: try (eapply denote_not; eauto; fail).
  all: try (eapply denote_and; eauto; fail).
  all: try (eapply denote_or; eauto; fail).
  all: try (replace (negb (eqb r1 r2)) with (xorb r1 r2) by (destruct r1, r2; reflexivity);
            eapply denote_xor; eauto; fail).
Qed.

Lemma gate_result_complete (gate : Gate) (inputs : list bool) (g : Z) s1 r1 s2 r2 :
  GateType gate <> GateINPUT -> GateType gate <> GateCONST ->
  arity_bad (GateType gate) (InFrom gate) = false -> (1 <= length (InFrom gate))%nat ->
  s1 = true -> (length (InFrom gate) = 2%nat -> s2 = true) ->
  exists r, gate_result gate inputs g s1 r1 s2 r2 = Ret (true, r).
Proof.
  intros Hin Hc Har H1 -> Hs2. unfold arity_bad, min_in, max_in in Har.
  apply orb_false_iff in Har as [Hlo Hhi]. apply Z.ltb_ge in Hlo, Hhi.
  unfold gate_result.
  destruct (GateType gate); try congruence; cbn in Hlo, Hhi;
    repeat case_bool_decide; try lia; eexists; try reflexivity.
  all: rewrite Hs2 by lia; reflexivity.
Qed.

Lemma doomed_parent (c : Circuit) (g h : Z) : edge c g h -> doomed c h -> doomed c g.
Proof. intros He (x & Hr & Hx). exists x. split; [eapply rtc_l; eauto | exact Hx]. Qed.

Section Semantics.
Variables (c : Circuit) (inputs : list bool).
Hypothesis Hok : gates_ok c.

Lemma evaluateGate_denote : forall fuel g st st' s r,
  memo_ok c inputs st ->
  evaluateGate c inputs fuel g st = Ret (st', (s, r)) ->
  memo_ok c inputs st' /\ (s = true -> denote c inputs g r).
Proof.
  induction fuel as [|fuel IH]; intros g st st' s r Hst H; [discriminate H|].
  cbn [evaluateGate] in H.
  inv_bind H vis Hvis. inv_bind H cyc Hcyc.
  destruct cyc.
  { injection H as <- <- <-. split; [exact Hst | discriminate]. }
  inv_bind H cal Hcal. destruct cal.
  { inv_bind H v Hv. injection H as <- <- <-. split; [exact Hst|]. intros _.
    apply idx_Ret in Hcal as [Hg Hcal]. apply idx_Ret in Hv as [_ Hv].
    pose proof (Hst _ _ Hcal Hv) as Hd. rewrite Z2Nat.id in Hd by lia. exact Hd. }
  inv_bind H vis' Hvis'. inv_bind H gate Hgate.
  apply idx_Ret in Hgate as [Hg Hgate].
  pose proof (arity_ok _ _ (Hok _ _ Hgate)) as [Hle2 Hconst].
  inv_bind H ch Hch. destruct ch as [st2 [[[s1 r1] s2] r2]]. cbv beta iota in H.
  assert (Hchild : memo_ok c inputs st2 /\
    (GateType gate <> GateINPUT -> exists p0 rest, InFrom gate = p0 :: rest /\
       (s1 = true -> denote c inputs p0 r1) /\
       (forall p1, rest = [p1] -> s2 = true -> denote c inputs p1 r2))).
  { case_bool_decide as Hin.
    - injection Hch as <- <- <- <- <-. split; [exact Hst|]. intros; congruence.
    - inv_bind Hch p0 Hp0. inv_bind Hch x Hx. destruct x as [st2a [s1a r1a]].
      cbv beta iota in Hch.
      destruct (IH _ _ _ _ _ (Hst : memo_ok c inputs (mkState vis' (calculated st) (values st))) Hx)
        as [Hst2a Hd0].
      apply idx_Ret in Hp0 as [_ Hp0].
      destruct (InFrom gate) as [|a rest] eqn:Hfrom; [discriminate Hp0|].
      cbn in Hp0. injection Hp0 as ->.
      case_bool_decide as Hlen.
      + inv_bind Hch p1 Hp1. inv_bind Hch y Hy. destruct y as [st3 [s2a r2a]].
        cbv beta iota in Hch. injection Hch as <- <- <- <- <-.
        destruct (IH _ _ _ _ _ Hst2a Hy) as [Hst3 Hd1].
        apply idx_Ret in Hp1 as [_ Hp1].
        split; [exact Hst3|]. intros _. exists p0, rest. split; [reflexivity|].
        split; [exact Hd0|]. intros q ->. cbn in Hp1. injection Hp1 as ->. exact Hd1.
      + injection Hch as <- <- <- <- <-.
        split; [exact Hst2a|]. intros _. exists p0, rest. split; [reflexivity|].
        split; [exact Hd0|]. intros q ->. cbn in Hlen. lia. }
  destruct Hchild as (Hst2 & Hkids).
  inv_bind H res Hres. destruct res as [success result]. cbv beta iota in H.
  assert (Hden : success = true -> denote c inputs g result).
  { intros ->. destruct (decide (GateType gate = GateINPUT)) as [Hin|Hin].
    - unfold gate_result in Hres. rewrite Hin in Hres.
      inv_bind Hres v Hv. injection Hres as <-.
      apply idx_Ret in Hv as [_ Hv]. eapply denote_input; eauto.
    - destruct (Hkids Hin) as (p0 & rest & Hfrom & Hd0 & Hd1).
      assert (Hnc : GateType gate <> GateCONST).
      { intros Hc. specialize (Hconst Hc). rewrite Hfrom in Hconst. discriminate. }
      exact (gate_result_sound c inputs g gate p0 rest _ _ _ _ _ Hg Hgate Hin Hnc Hfrom Hd0 Hd1 Hres). }
  destruct success.
  - inv_bind H cal' Hcal'. inv_bind H vals' Hvals'. injection H as <- <- <-.
    apply upd_Ret in Hcal' as (_ & _ & ->). apply upd_Ret in Hvals' as (_ & _ & ->).
    split; [|exact Hden].
    intros k v Hk Hv. cbn [calculated values] in Hk, Hv.
    destruct (decide (k = Z.to_nat g)) as [->|Hne].
    + rewrite list_lookup_insert_eq in Hv by (apply lookup_lt_Some in Hv; rewrite length_insert in Hv; exact Hv).
      injection Hv as <-. rewrite Z2Nat.id by lia. exact (Hden eq_refl).
    + rewrite list_lookup_insert_ne in Hk, Hv by congruence. exact (Hst2 k v Hk Hv).
  - injection H as <- <- <-. split; [exact Hst2 | discriminate].
Qed.

Lemma evaluateGate_fail : forall fuel g st st' s r,
  pending_ok c g st ->
  evaluateGate c inputs fuel g st = Ret (st', (s, r)) ->
  (s = false -> doomed c g) /\
  (s = true -> forall k, visited st' !! k = Some true -> calculated st' !! k = Some false ->
                visited st !! k = Some true /\ calculated st !! k = Some false).
Proof.
  induction fuel as [|fuel IH]; intros g st st' s r Hst H; [discriminate H|].
  cbn [evaluateGate] in H.
  inv_bind H vis Hvis. inv_bind H cyc Hcyc.
  destruct cyc.
  { injection H as <- <- <-. split; [|discriminate]. intros _.
    destruct vis; [|discriminate Hcyc].
    inv_bind Hcyc cal Hcal. destruct cal; [discriminate Hcyc|].
    apply idx_Ret in Hvis as [Hg Hvis]. apply idx_Ret in Hcal as [_ Hcal].
    pose proof (Hst _ Hvis Hcal) as Ht. rewrite Z2Nat.id in Ht by lia.
    exists g. split; [apply rtc_refl | exact Ht]. }
  inv_bind H cal Hcal. destruct cal.
  { inv_bind H v Hv. injection H as <- <- <-. split; [discriminate|]. auto. }
  inv_bind H vis' Hvis'. inv_bind H gate Hgate.
  apply idx_Ret in Hgate as [Hg Hgate].
  apply upd_Ret in Hvis' as (_ & Hvl & ->).
  apply idx_Ret in Hcal as [_ Hcal].
  pose proof (arity_ok _ _ (Hok _ _ Hgate)) as [Hle2 Hconst].
  set (st1 := mkState (<[Z.to_nat g := true]> (visited st)) (calculated st) (values st)) in *.
  (* the pending gates of [st1] reach every predecessor of [g] *)
  assert (Hpend : forall h, GateType gate <> GateINPUT -> h ∈ InFrom gate -> pending_ok c h st1).
  { intros h Hin Hh k Hk Hck. cbn [st1 visited calculated] in Hk, Hck.
    assert (He : edge c g h) by (exists gate; auto).
    destruct (decide (k = Z.to_nat g)) as [->|Hne].
    - rewrite Z2Nat.id by lia. apply tc_once, He.
    - rewrite list_lookup_insert_ne in Hk by congruence.
      eapply tc_r; [exact (Hst k Hk Hck) | exact He]. }
  (* no new pending gate after a successful call *)
  assert (Hsub : forall st0 st0', (forall k, visited st0' !! k = Some true -> calculated st0' !! k = Some false ->
                   visited st0 !! k = Some true /\ calculated st0 !! k = Some false) ->
                 forall h, pending_ok c h st0 -> pending_ok c h st0').
  { intros st0 st0' Hs h Hp k Hk Hck. destruct (Hs k Hk Hck). auto. }
  inv_bind H ch Hch. destruct ch as [st2 [[[s1 r1] s2] r2]]. cbv beta iota in H.
  assert (Hchild :
    (forall k, s1 = true -> (length (InFrom gate) = 2%nat -> s2 = true) ->
       visited st2 !! k = Some true -> calculated st2 !! k = Some false ->
       visited st1 !! k = Some true /\ calculated st1 !! k = Some false) /\
    (GateType gate <> GateINPUT ->
       (1 <= length (InFrom gate))%nat /\
       (s1 = false -> doomed c g) /\
       (s1 = true -> length (InFrom gate) = 2%nat -> s2 = false -> doomed c g))).
  { case_bool_decide as Hin.
    - injection Hch as <- <- <- <- <-. split; [auto|]. intros; congruence.
    - inv_bind Hch p0 Hp0. inv_bind Hch x Hx. destruct x as [st2a [s1a r1a]].
      cbv beta iota in Hch.
      apply idx_Ret in Hp0 as [_ Hp0].
      assert (Hm0 : p0 ∈ InFrom gate) by (eapply list_elem_of_lookup_2; eauto).
      assert (He0 : edge c g p0) by (exists gate; auto).
      destruct (IH _ _ _ _ _ (Hpend p0 Hin Hm0) Hx) as [Hf0 Hs0].
      assert (H1 : (1 <= length (InFrom gate))%nat) by (apply lookup_lt_Some in Hp0; lia).
      case_bool_decide as Hlen.
      + inv_bind Hch p1 Hp1. inv_bind Hch y Hy. destruct y as [st3 [s2a r2a]].
        cbv beta iota in Hch. injection Hch as <- <- <- <- <-.
        apply idx_Ret in Hp1 as [_ Hp1].
        assert (Hm1 : p1 ∈ InFrom gate) by (eapply list_elem_of_lookup_2; eauto).
        assert (He1 : edge c g p1) by (exists gate; auto).
        split.
        * intros k Hs1 Hs2 Hk Hck.
          destruct (IH _ _ _ _ _ (Hsub _ _ (Hs0 Hs1) p1 (Hpend p1 Hin Hm1)) Hy) as [_ Hs1'].
          destruct (Hs1' (Hs2 Hlen) k Hk Hck) as [Hk' Hck'].
          exact (Hs0 Hs1 k Hk' Hck').
        * intros _. split; [exact H1|]. split.
          -- intros Hs1. exact (doomed_parent c g p0 He0 (Hf0 Hs1)).
          -- intros Hs1 _ Hs2.
             destruct (IH _ _ _ _ _ (Hsub _ _ (Hs0 Hs1) p1 (Hpend p1 Hin Hm1)) Hy) as [Hf1 _].
             exact (doomed_parent c g p1 He1 (Hf1 Hs2)).
      + injection Hch as <- <- <- <- <-.
        split.
        * intros k Hs1 _ Hk Hck. exact (Hs0 Hs1 k Hk Hck).
        * intros _. split; [exact H1|]. split.
          -- intros Hs1. exact (doomed_parent c g p0 He0 (Hf0 Hs1)).
          -- intros _ Hl. congruence. }
  destruct Hchild as (Hkeep & Hkids).
  inv_bind H res Hres. destruct res as [success result]. cbv beta iota in H.
  assert (Hkid_ok : success = true -> s1 = true /\ (length (InFrom gate) = 2%nat -> s2 = true)
                    \/ GateType gate = GateINPUT).
  { intros ->. destruct (decide (GateType gate = GateINPUT)) as [Hin|Hin]; [right; exact Hin|].
    left. assert (Hnc : GateType gate <> GateCONST).
    { intros Hc. destruct (Hkids Hin) as [H1 _]. rewrite (Hconst Hc) in H1. lia. }
    exact (gate_result_success _ _ _ _ _ _ _ _ Hin Hnc Hres). }
  destruct success.
  - inv_bind H cal' Hcal'. inv_bind H vals' Hvals'. injection H as <- <- <-.
    apply upd_Ret in Hcal' as (_ & _ & ->).
    split; [discriminate|]. intros _ k Hk Hck. cbn [visited calculated] in Hk, Hck.
    destruct (decide (k = Z.to_nat g)) as [->|Hne].
    + rewrite list_lookup_insert_eq in Hck; [discriminate|].
      apply lookup_lt_Some in Hck. rewrite length_insert in Hck. exact Hck.
    + rewrite list_lookup_insert_ne in Hck by congruence.
      destruct (Hkid_ok eq_refl) as [[Hs1 Hs2] | Hin].
      * destruct (Hkeep k Hs1 Hs2 Hk Hck) as [Hk1 Hck1].
        cbn [st1 visited calculated] in Hk1, Hck1.
        rewrite list_lookup_insert_ne in Hk1 by congruence. auto.
      * case_bool_decide; [|congruence].
        injection Hch as <- <- <- <- <-. cbn [st1 visited calculated] in Hk, Hck.
        rewrite list_lookup_insert_ne in Hk by congruence. auto.
  - injection H as <- <- <-. split; [|discriminate]. intros _.
    destruct (decide (GateType gate = GateINPUT)) as [Hin|Hin].
    + unfold gate_result in Hres. rewrite Hin in Hres.
      inv_bind Hres v Hv. discriminate Hres.
    + destruct (Hkids Hin) as (H1 & Hd0 & Hd1).
      assert (Hnc : GateType gate <> GateCONST).
      { intros Hc. rewrite (Hconst Hc) in H1. lia. }
      destruct s1; [|exact (Hd0 eq_refl)].
      destruct (decide (length (InFrom gate) = 2%nat)) as [Hl|Hl].
      * destruct s2; [|exact (Hd1 eq_refl Hl eq_refl)].
        destruct (gate_result_complete gate inputs g true r1 true r2 Hin Hnc (Hok _ _ Hgate) H1
                    eq_refl (fun _ => eq_refl)) as [r' Hr'].
        congruence.
      * destruct (gate_result_complete gate inputs g true r1 s2 r2 Hin Hnc (Hok _ _ Hgate) H1
                    eq_refl (fun H => False_ind _ (Hl H))) as [r' Hr'].
        congruence.
Qed.
End Semantics.

Lemma eval_outputs_denote (c : Circuit) (inputs : list bool) (Hok : gates_ok c) :
  forall k i st result out,
  memo_ok c inputs st ->
  (forall j v, (j < i)%nat -> result !! j = Some v ->
               denote c inputs (getOutputGate c (Z.of_nat j)) v) ->
  eval_outputs c inputs i k st result = Ret (true, out) ->
  exists r, out = Some r /\ length r = length result /\
    forall j v, (j < i + k)%nat -> r !! j = Some v ->
                denote c inputs (getOutputGate c (Z.of_nat j)) v.
Proof.
  induction k as [|k IH]; intros i st result out Hst Hres H.
  - cbn [eval_outputs] in H. injection H as <-. exists result.
    split; [reflexivity|]. split; [reflexivity|]. intros j v Hj. apply Hres. lia.
  - cbn [eval_outputs] in H.
    set (st0 := mkState (replicate (length (visited st)) false) (calculated st) (values st)) in H.
    inv_bind H x Hx. destruct x as [st' [s bit]]. cbv beta iota in H.
    destruct (evaluateGate_denote c inputs Hok _ _ _ _ _ _ (Hst : memo_ok c inputs st0) Hx)
      as [Hst' Hd].
    inv_bind H result' Hu. unfold updn in Hu. case_decide as Hi; [|discriminate Hu].
    injection Hu as <-.
    destruct s; cbn [negb] in H; [|discriminate H].
    assert (Hres' : forall j v, (j < S i)%nat -> <[i:=bit]> result !! j = Some v ->
                    denote c inputs (getOutputGate c (Z.of_nat j)) v).
    { intros j v Hj Hv. destruct (decide (j = i)) as [->|Hne].
      * rewrite list_lookup_insert_eq in Hv by exact Hi. injection Hv as <-. exact (Hd eq_refl).
      * rewrite list_lookup_insert_ne in Hv by congruence. apply (Hres j v); [lia | exact Hv]. }
    destruct (IH (S i) st' _ out Hst' Hres' H) as (r & -> & Hl & Hr).
    exists r. split; [reflexivity|]. rewrite length_insert in Hl. split; [exact Hl|].
      intros j v Hj. apply Hr. lia.
Qed.

Lemma eval_outputs_fail (c : Circuit) (inputs : list bool) (Hok : gates_ok c) :
  forall k i st result out,
  eval_outputs c inputs i k st result = Ret (false, out) ->
  out = None /\ exists j, (i <= j < i + k)%nat /\ doomed c (getOutputGate c (Z.of_nat j)).
Proof.
  induction k as [|k IH]; intros i st result out H.
  - discriminate H.
  - cbn [eval_outputs] in H.
    set (st0 := mkState (replicate (length (visited st)) false) (calculated st) (values st)) in H.
    inv_bind H x Hx. destruct x as [st' [s bit]]. cbv beta iota in H.
    assert (Hp0 : pending_ok c (getOutputGate c (Z.of_nat i)) st0).
    { intros j Hj. cbn [st0 visited] in Hj. rewrite lookup_replicate in Hj.
      destruct Hj; discriminate. }
    destruct (evaluateGate_fail c inputs Hok _ _ _ _ _ _ Hp0 Hx) as [Hf _].
    inv_bind H result' Hu.
    destruct s; cbn [negb] in H.
    + destruct (IH (S i) st' result' out H) as [Hout (j & Hj & Hd)].
      split; [exact Hout|]. exists j. split; [lia | exact Hd].
    + injection H as <-. split; [reflexivity|]. exists i. split; [lia | exact (Hf eq_refl)].
Qed.

(** X11: a successful evaluation of a valid circuit returns one bit per output
    wire, and bit [o] is the value of the gate of output wire [o]. *)
Theorem EvaluateCircuit_sound (c : Circuit) (inputs : list bool) out :
  validCircuit c = true -> EvaluateCircuit c inputs = Ret (true, out) ->
  exists r, out = Some r /\ Z.of_nat (length r) = NumOutputWires c /\
    forall o v, r !! o = Some v -> denote c inputs (getOutputGate c (Z.of_nat o)) v.
Proof.
  intros Hv H. pose proof (validCircuit_gates_ok c Hv) as Hok.
  unfold EvaluateCircuit in H.
  destruct (negb _ || (NumOutputWires c <? 1)) eqn:Hshape; [discriminate H|].
  apply orb_false_iff in Hshape as [_ Hout]. apply Z.ltb_ge in Hout.
  unfold make in H.
  replace (Z.of_nat (length (Gates c)) <? 0) with false in H by (symmetry; apply Z.ltb_ge; lia).
  replace (NumOutputWires c <? 0) with false in H by (symmetry; apply Z.ltb_ge; lia).
  cbn [obind] in H.
  eapply eval_outputs_denote in H as (r & -> & Hl & Hr); [| exact Hok | |].
  - exists r. split; [reflexivity|]. rewrite length_replicate in Hl. split; [lia|].
    intros o v Ho. apply (Hr o v); [|exact Ho].
    apply lookup_lt_Some in Ho. lia.
  - intros k v Hk. cbn [calculated] in Hk. rewrite lookup_replicate in Hk.
    destruct Hk; discriminate.
  - intros j v Hj. lia.
Qed.

(** X12: a valid circuit fails to evaluate, with no result slice, only when the
    input vector has the wrong length, there is no output wire, or the gate
    of some output wire reaches a reference cycle. *)
Theorem EvaluateCircuit_false_cycle (c : Circuit) (inputs : list bool) out :
  validCircuit c = true -> EvaluateCircuit c inputs = Ret (false, out) ->
  out = None /\
  (Z.of_nat (length inputs) <> NumInputWires c \/ NumOutputWires c < 1 \/
   exists o, 0 <= o < NumOutputWires c /\ doomed c (getOutputGate c o)).
Proof.
  intros Hv H. pose proof (validCircuit_gates_ok c Hv) as Hok.
  unfold EvaluateCircuit in H.
  destruct (negb _ || (NumOutputWires c <? 1)) eqn:Hshape.
  - injection H as <-. split; [reflexivity|].
    apply orb_true_iff in Hshape as [Hs|Hs].
    + left. apply negb_true_iff, Z.eqb_neq in Hs. exact Hs.
    + right. left. apply Z.ltb_lt in Hs. exact Hs.
  - apply orb_false_iff in Hshape as [_ Hout]. apply Z.ltb_ge in Hout.
    unfold make in H.
    replace (Z.of_nat (length (Gates c)) <? 0) with false in H by (symmetry; apply Z.ltb_ge; lia).
    replace (NumOutputWires c <? 0) with false in H by (symmetry; apply Z.ltb_ge; lia).
    cbn [obind] in H.
    destruct (eval_outputs_fail c inputs Hok _ _ _ _ _ H) as [-> (j & Hj & Hd)].
    split; [reflexivity|]. right. right. exists (Z.of_nat j). split; [lia | exact Hd].
Qed.

Lemma EvaluateCircuit_sound_witness :
  validCircuit unreachable_cycle_circ = true /\
  EvaluateCircuit unreachable_cycle_circ [true] = Ret (true, Some [true]) /\
  exists r, Some [true] = Some r /\
    Z.of_nat (length r) = NumOutputWires unreachable_cycle_circ /\
    forall o v, r !! o = Some v ->
      denote unreachable_cycle_circ [true] (getOutputGate unreachable_cycle_circ (Z.of_nat o)) v.
Proof.
  assert (H1 : validCircuit unreachable_cycle_circ = true) by reflexivity.
  assert (H2 : EvaluateCircuit unreachable_cycle_circ [true] = Ret (true, Some [true]))
    by (vm_compute; reflexivity).
  split; [exact H1|]. split; [exact H2|].
  exact (EvaluateCircuit_sound unreachable_cycle_circ [true] (Some [true]) H1 H2).
Defined.

Lemma EvaluateCircuit_false_cycle_witness :
  validCircuit later_cycle_circ = true /\
  EvaluateCircuit later_cycle_circ [true] = Ret (false, None) /\
  None = @None (list bool) /\
  (Z.of_nat (length [true]) <> NumInputWires later_cycle_circ \/
   NumOutputWires later_cycle_circ < 1 \/
   exists o, 0 <= o < NumOutputWires later_cycle_circ /\
             doomed later_cycle_circ (getOutputGate later_cycle_circ o)).
Proof.
  assert (H1 : validCircuit later_cycle_circ = true) by reflexivity.
  assert (H2 : EvaluateCircuit later_cycle_circ [true] = Ret (false, None))
    by (vm_compute; reflexivity).
  split; [exact H1|]. split; [exact H2|].
  exact (EvaluateCircuit_false_cycle later_cycle_circ [true] None H1 H2).
Defined.

(** ** Evaluator: panic freedom *)

Lemma opost_bind {A B} (Q : A -> Prop) (R : B -> Prop) (m : outcome A) (k : A -> outcome B) :
  opost Q m -> (forall a, Q a -> opost R (k a)) -> opost R (obind m k).
Proof. destruct m; cbn; auto. Qed.

Lemma idx_in {A} (l : list A) (i : Z) :
  0 <= i < Z.of_nat (length l) -> exists x, l !! Z.to_nat i = Some x /\ idx l i = Ret x.
Proof.
  intros Hi. destruct (lookup_lt_is_Some_2 l (Z.to_nat i)) as [x Hx]; [lia|].
  exists x. split; [exact Hx|]. unfold idx. rewrite Hx.
  replace (0 <=? i) with true by (symmetry; apply Z.leb_le; lia). reflexivity.
Qed.

Lemma upd_in {A} (l : list A) (i : Z) (x : A) :
  0 <= i < Z.of_nat (length l) -> upd l i x = Ret (<[Z.to_nat i := x]> l).
Proof.
  intros Hi. unfold upd.
  replace ((0 <=? i) && (i <? Z.of_nat (length l))) with true
    by (symmetry; apply andb_true_iff; split; [apply Z.leb_le | apply Z.ltb_lt]; lia).
  reflexivity.
Qed.

Lemma gate_result_no_panic g inputs gid s1 r1 s2 r2 :
  (GateType g = GateINPUT -> 0 <= gid < Z.of_nat (length inputs)) ->
  exists s r, gate_result g inputs gid s1 r1 s2 r2 = Ret (s, r).
Proof.
  intros Hin. unfold gate_result.
  destruct (GateType g) eqn:Ht;
    repeat match goal with
    | |- context [if ?b then _ else _] => destruct b
    end; eauto.
  destruct (idx_in inputs gid (Hin eq_refl)) as (x & _ & ->). cbn. eauto.
Qed.

Section NoPanic.
Variables (c : Circuit) (inputs : list bool).
Hypothesis Hw : wired c.
Hypothesis Hin : Z.of_nat (length inputs) = NumInputWires c.

Let N := length (Gates c).

Lemma evaluateGate_no_panic :
  forall fuel g st, st_len N st -> 0 <= g < Z.of_nat N ->
  opost (fun '(st', _) => st_len N st') (evaluateGate c inputs fuel g st).
Proof.
  induction fuel as [|fuel IH]; intros g st (Hv & Hc & Hvl) Hg; [exact I|].
  cbn [evaluateGate].
  destruct (idx_in (visited st) g) as (vis & _ & Hvis); [lia|].
  destruct (idx_in (calculated st) g) as (cal & _ & Hcal); [lia|].
  destruct (idx_in (values st) g) as (val & _ & Hval); [lia|].
  rewrite Hvis. cbn [obind].
  destruct vis; rewrite ?Hcal; cbn [obind negb];
    (destruct cal; cbn [negb]; [| try (cbn; split; auto; fail)]);
    rewrite ?Hcal; cbn [obind]; try (rewrite Hval; cbn; split; auto; fail).
  all: rewrite (upd_in (visited st) g true) by lia; cbn [obind].
  all: destruct (idx_in (Gates c) g) as (gate & Hgate & Hidx); [exact Hg|].
  all: rewrite Hidx; cbn [obind].
  all: set (st1 := mkState (<[Z.to_nat g := true]> (visited st)) (calculated st) (values st)).
  all: assert (Hst1 : st_len N st1)
         by (unfold st_len, st1; cbn [visited calculated values]; rewrite length_insert; auto).
  all: destruct (Hw _ _ Hgate) as [Hwi Hwo].
  all: apply (opost_bind (fun x : EvalState * (bool * bool * bool * bool) => st_len N x.1));
    [| intros [st2 [[[s1 r1] s2] r2]] Hst2; cbn [fst] in Hst2;
       destruct (gate_result_no_panic gate inputs g s1 r1 s2 r2) as (s & r & Hr);
       [intros Ht; specialize (Hwi Ht); lia|];
       rewrite Hr; cbn [obind];
       destruct Hst2 as (Hv2 & Hc2 & Hvl2);
       destruct s; cbn;
       [rewrite (upd_in (calculated st2) g true) by lia; cbn [obind];
        rewrite (upd_in (values st2) g r) by lia; cbn;
        unfold st_len; cbn [visited calculated values]; rewrite !length_insert; auto
       | split; auto]].
  all: case_bool_decide as Ht; [cbn; exact Hst1|].
  all: destruct (Hwo Ht) as [Hne Hall].
  all: destruct (InFrom gate) as [|p0 rest] eqn:Hif; [congruence|].
  all: inversion_clear Hall as [|? ? Hp0 Hrest].
  all: cbn [idx]; replace (0 <=? 0) with true by reflexivity; cbn [lookup list_lookup obind].
  all: apply (opost_bind _ _ _ _ (IH p0 st1 Hst1 Hp0)).
  all: intros [st2 [s1 r1]] Hst2.
  all: case_bool_decide as Hl2; [|cbn; exact Hst2].
  all: destruct rest as [|p1 rest']; [cbn in Hl2; lia|].
  all: inversion_clear Hrest as [|? ? Hp1 _].
  all: cbn [idx]; replace (0 <=? 1) with true by reflexivity; cbn [lookup list_lookup obind].
  all: apply (opost_bind _ _ _ _ (IH p1 st2 Hst2 Hp1)).
  all: intros [st3 [s2 r2]] Hst3. all: cbn. all: exact Hst3.
Qed.

Lemma eval_outputs_no_panic :
  forall k i st result, st_len N st -> (i + k <= length result)%nat ->
  (forall j, (i <= j < i + k)%nat -> 0 <= getOutputGate c (Z.of_nat j) < Z.of_nat N) ->
  exists r, eval_outputs c inputs i k st result = Ret r.
Proof.
  induction k as [|k IH]; intros i st result Hst Hlen Hout; [eexists; reflexivity|].
  cbn [eval_outputs].
  set (st0 := mkState (replicate (length (visited st)) false) (calculated st) (values st)).
  destruct Hst as (Hv & Hc & Hvl).
  assert (Hst0 : st_len N st0)
    by (unfold st_len, st0; cbn [visited calculated values]; rewrite length_replicate; auto).
  assert (Hfu := evaluateGate_fuel c inputs (S N) (getOutputGate c (Z.of_nat i)) st0).
  assert (Hc0 : (count_false (visited st0) < S N)%nat)
    by (cbn [st0 visited]; rewrite count_false_replicate; lia).
  specialize (Hfu Hc0).
  assert (Hnp := evaluateGate_no_panic (S N) (getOutputGate c (Z.of_nat i)) st0 Hst0
                   ltac:(apply Hout; lia)).
  fold N.
  destruct (evaluateGate c inputs (S N) (getOutputGate c (Z.of_nat i)) st0)
    as [[st' [s r]]| |]; cbn in Hnp, Hfu; try contradiction.
  cbn [obind]. unfold updn. rewrite decide_True by lia. cbn [obind].
  destruct s; cbn [negb]; [|eexists; reflexivity].
  apply IH; [exact Hnp | rewrite length_insert; lia | intros j Hj; apply Hout; lia].
Qed.

End NoPanic.

(** X13: a valid circuit whose wire counts fit in an [int], whose gate
    references all address gates, whose non-[Input] gates all have a
    predecessor and whose [Input] gates stand below [NumInputWires], never
    panics when evaluated: [EvaluateCircuit] returns a result for every input
    vector. *)
Theorem EvaluateCircuit_no_panic (c : Circuit) (inputs : list bool) :
  validCircuit c = true -> NumInputWires c + NumOutputWires c < 2^63 -> wired c ->
  exists r, EvaluateCircuit c inputs = Ret r.
Proof.
  intros Hv Hsum Hw. unfold EvaluateCircuit.
  destruct (negb _ || (NumOutputWires c <? 1)) eqn:Hshape; [eexists; reflexivity|].
  apply orb_false_iff in Hshape as [Hin Hout].
  apply negb_false_iff, Z.eqb_eq in Hin. apply Z.ltb_ge in Hout.
  unfold make.
  replace (Z.of_nat (length (Gates c)) <? 0) with false by (symmetry; apply Z.ltb_ge; lia).
  replace (NumOutputWires c <? 0) with false by (symmetry; apply Z.ltb_ge; lia).
  cbn [obind].
  assert (Hn : NumInputWires c + NumOutputWires c <= Z.of_nat (length (Gates c))).
  { unfold validCircuit in Hv. destruct (_ <? _) eqn:E; [discriminate|].
    apply Z.ltb_ge in E. rewrite wrap64_small in E by lia. exact E. }
  apply (eval_outputs_no_panic c inputs Hw Hin).
  - unfold st_len. cbn [visited calculated values]. rewrite !length_replicate. lia.
  - rewrite length_replicate. lia.
  - intros j Hj. unfold getOutputGate. rewrite wrap64_small by lia. lia.
Qed.

Lemma EvaluateCircuit_no_panic_witness :
  validCircuit and_circ = true /\
  NumInputWires and_circ + NumOutputWires and_circ < 2^63 /\ wired and_circ /\
  exists r, EvaluateCircuit and_circ [true; false] = Ret r.
Proof.
  assert (H1 : validCircuit and_circ = true) by reflexivity.
  assert (H2 : NumInputWires and_circ + NumOutputWires and_circ < 2^63) by (cbn; lia).
  assert (H3 : wired and_circ).
  { intros k g Hk.
    destruct k as [|[|[|[|k]]]]; cbn in Hk; try discriminate; injection Hk as <-;
      cbn; (split; [intros Ht; try discriminate; lia | intros Ht]);
      try (exfalso; apply Ht; reflexivity);
      (split; [discriminate | repeat constructor; lia]). }
  split; [exact H1|]. split; [exact H2|]. split; [exact H3|].
  exact (EvaluateCircuit_no_panic and_circ [true; false] H1 H2 H3).
Defined.

(** ** Evaluator: cycle detection *)




